(** * Cinder [AppBase.h]: event combiners, primary-thread dispatch,
      fps sampling and the free accessors of the active application.

    The development follows [include/cinder/app/AppBase.h].  Each part embeds
    the C++ it talks about as executable Rocq definitions, keeping the names
    of the source; theorems come after the definitions. *)

From Stdlib Require Import ZArith QArith Qcanon.
From stdpp Require Import base option list numbers gmap.

Set Default Proof Using "Type".

(** ** Event combiners (AppBase.h, lines 55-101)

    A combiner is applied to a range [first, last) of slot-call iterators.
    Dereferencing such an iterator invokes the connected slot, so [*first++]
    both runs a slot (with whatever side effects it has) and steps to the
    next one.  A slot is therefore a state transformer over the state [W]
    its side effects live in, and the range is the list of slots that are
    still to be visited: [first == last] holds exactly when it is empty. *)

Module Combiner.

Section Slots.
Context {W R : Type}.

(** A connected slot: invoked in a state, it yields a result and the
    state its side effects leave behind. *)
Definition Slot : Type := W -> R * W.

(** The range [first, last). *)
Definition Range : Type := list Slot.

(** The result of every slot of the range, invoking each one once, in
    order, on the state left by its predecessors. *)
Fixpoint slot_results (range : Range) (w : W) : list R :=
  match range with
  | [] => []
  | f :: rest => let '(r, w') := f w in r :: slot_results rest w'
  end.

(** The state after invoking every slot of the range once, in order. *)
Fixpoint invoke_all (range : Range) (w : W) : W :=
  match range with
  | [] => w
  | f :: rest => let '(_, w') := f w in invoke_all rest w'
  end.
End Slots.

Arguments Slot : clear implicits.
Arguments Range : clear implicits.

Section Boolean.
Context {W : Type}.

(** [while( first != last ) handled = *first++ || handled;]
    The slot call is the left operand of [||]: it is evaluated first, and
    only the read of [handled] is skipped when it yields [true]. *)
Fixpoint or_loop (range : Range W bool) (handled : bool) (w : W) : bool * W :=
  match range with
  | [] => (handled, w)
  | f :: rest =>
      let '(r, w') := f w in
      or_loop rest (if r then true else handled) w'
  end.

(** [BooleanOrEventCombiner::operator()] *)
Definition BooleanOrEventCombiner (range : Range W bool) (w : W) : bool * W :=
  let handled := match range with [] => true | _ :: _ => false end in
  or_loop range handled w.

(** [while( first != last ) result = *first++ && result;] *)
Fixpoint and_loop (range : Range W bool) (result : bool) (w : W) : bool * W :=
  match range with
  | [] => (result, w)
  | f :: rest =>
      let '(r, w') := f w in
      and_loop rest (if r then result else false) w'
  end.

(** [BooleanAndEventCombiner::operator()] *)
Definition BooleanAndEventCombiner (range : Range W bool) (w : W) : bool * W :=
  and_loop range true w.
End Boolean.

(** The integer-like result type [T] of [BitwiseAndEventCombiner<T>]: it
    must be constructible from the literal [0] and support [&=]. *)
Class Bitmask (T : Type) := {
  mask_zero : T;
  mask_and : T -> T -> T
}.

(** Integers: [&] is [Z.land], which on the two's complement reading of a
    w-bit integer is the machine operation and never leaves the w-bit
    range. *)
#[export] Instance Z_Bitmask : Bitmask Z :=
  {| mask_zero := 0%Z; mask_and := Z.land |}.

Section Bitwise.
Context {W T : Type} `{Bitmask T}.

(** [while( first != last ) mask &= *first++;] *)
Fixpoint mask_loop (range : Range W T) (mask : T) (w : W) : T * W :=
  match range with
  | [] => (mask, w)
  | f :: rest =>
      let '(r, w') := f w in
      mask_loop rest (mask_and mask r) w'
  end.

(** [BitwiseAndEventCombiner<T>::operator()] *)
Definition BitwiseAndEventCombiner (range : Range W T) (w : W) : T * W :=
  match range with
  | [] => (mask_zero, w)
  | f :: rest =>
      let '(mask, w') := f w in
      mask_loop rest mask w'
  end.
End Bitwise.

(** *** Counting invocations

    To observe which slots a combiner runs, every slot of a range is given
    its position and made to append it to a log each time it is invoked. *)
Section Logged.
Context {W R : Type}.

Definition logged (i : nat) (f : Slot W R) : Slot (W * list nat) R :=
  fun '(w, log) => let '(r, w') := f w in (r, (w', log ++ [i])).

Definition logged_range (range : Range W R) : Range (W * list nat) R :=
  imap logged range.

(** How often slot [i] was invoked according to a log. *)
Definition times_invoked (i : nat) (log : list nat) : nat :=
  length (filter (λ j, j = i) log).
End Logged.

(** Three handlers returning [true], [false], [true], and two returning the
    masks [0b110] and [0b100]; each counts its invocation in the state. *)
Definition example_handlers : Range nat bool :=
  [fun n => (true, S n); fun n => (false, S n); fun n => (true, S n)].

Definition example_masks : Range nat Z :=
  [fun n => (6%Z, S n); fun n => (4%Z, S n)].

(** A boolean slot read as a slot of an integer type: [true] is [1] and
    [false] is [0], as C++ converts them. *)
Definition as_mask {W : Type} (f : Slot W bool) : Slot W Z :=
  fun w => let '(r, w') := f w in (Z.b2z r, w').

(** The handlers of [example_handlers] connected in another order, and two
    handlers that both accept. *)
Definition example_handlers_reordered : Range nat bool :=
  [fun n => (false, S n); fun n => (true, S n); fun n => (true, S n)].

Definition example_masks_reordered : Range nat Z :=
  [fun n => (4%Z, S n); fun n => (6%Z, S n)].

Definition example_accepting : Range nat bool :=
  [fun n => (true, S n); fun n => (true, S n)].

End Combiner.

(** ** Dispatch onto the primary thread (AppBase.h, lines 400-404, 589-602)

    [dispatchSync] is defined in the header.  It calls [isPrimaryThread] and
    [dispatchAsync], which the header only declares, and it is woken by the
    loop that drains the posted tasks; those are described below where they
    are introduced.  Callables are arbitrary user code, so they are
    represented by what they can do to the application: compute on the
    memory they share, post tasks, and call [dispatchSync] themselves. *)

Module Dispatch.

(** Thread identities, as compared by [isPrimaryThread]. *)
Definition Thread : Type := nat.

(** The shared state of a [std::packaged_task] / [std::future] pair is named
    by the number under which it was created. *)
Definition Future : Type := nat.

Section App.
(** [U]: the memory callables compute on; [V]: the values they return
    ([std::result_of<T()>::type]); [E]: the exceptions they throw. *)
Context {U V E : Type}.

(** How an invocation ends. *)
Inductive Outcome : Type :=
| Returned (v : V)
| Thrown (e : E).

(** A callable [T fn], by the steps it takes when invoked. *)
Inductive Callable : Type :=
| Return (v : V)
| Throw (e : E)
| Local (act : U -> V * U) (k : V -> Callable)
| CallDispatchAsync (fn : Callable) (k : Callable)
| CallDispatchSync (fn : Callable) (k : V -> Callable).

(** [c; k]: run [c], then continue with [k] on the value it returned.  An
    exception thrown by [c] leaves the whole. *)
Fixpoint then_ (c : Callable) (k : V -> Callable) : Callable :=
  match c with
  | Return v => k v
  | Throw e => Throw e
  | Local act k' => Local act (fun v => then_ (k' v) k)
  | CallDispatchAsync fn k' => CallDispatchAsync fn (then_ k' k)
  | CallDispatchSync fn k' => CallDispatchSync fn (fun v => then_ (k' v) k)
  end.

(** A [std::function<void()>] handed to [dispatchAsync]: user code whose
    result is dropped, or the closure [[&task]() { task(); }] that
    [dispatchSync] builds around its packaged task. *)
Inductive Task : Type :=
| Plain (fn : Callable)
| RunPackaged (task : Future) (fn : Callable).

Definition task_future (t : Task) : option Future :=
  match t with
  | Plain _ => None
  | RunPackaged fut _ => Some fut
  end.

(** The part of the process the dispatcher acts on. *)
Record State : Type := mkState {
  queue : list Task;            (* tasks posted and not yet run, oldest first *)
  futures : gmap Future Outcome; (* the shared states that are ready *)
  next_future : Future;          (* the shared states created so far *)
  memory : U
}.

Definition set_queue (q : list Task) (s : State) : State :=
  mkState q (futures s) (next_future s) (memory s).

Definition set_memory (u : U) (s : State) : State :=
  mkState (queue s) (futures s) (next_future s) u.

(** What a thread that invokes a callable gets: the invocation ends, or the
    thread is suspended inside [fute.get()] with [k] left to run on the
    value the future will carry. *)
Inductive Result : Type :=
| Finished (o : Outcome) (s : State)
| Blocked (fut : Future) (k : V -> Callable) (s : State).

Definition state_of (r : Result) : State :=
  match r with
  | Finished _ s => s
  | Blocked _ _ s => s
  end.

(** [std::packaged_task<result_type()> task( std::move( fn ) )]: a new
    shared state, not ready. *)
Definition packaged_task (s : State) : Future * State :=
  (next_future s,
   mkState (queue s) (futures s) (S (next_future s)) (memory s)).

(** [task.get_future()]: the future shares the state of the task. *)
Definition get_future (task : Future) : Future := task.

(** [task()]: the stored callable has ended with [o]; the shared state takes
    it and becomes ready.  A shared state is satisfied once: making a ready
    one ready again raises [std::future_error] in the closure and leaves it
    as it was. *)
Definition make_ready (fut : Future) (o : Outcome) (s : State) : State :=
  match futures s !! fut with
  | None => mkState (queue s) (<[fut := o]> (futures s)) (next_future s) (memory s)
  | Some _ => s
  end.

(** Modelled from the spec: [AppBase::dispatchAsync] is declared in the
    header and defined elsewhere.  It enqueues the callable and returns
    immediately; the queue is unbounded and first-in first-out. *)
Definition dispatchAsync (fn : Task) (s : State) : State :=
  set_queue (queue s ++ [fn]) s.

(** [s'] differs from [s] by tasks posted and shared states created: no
    future has changed, and every closure added to the queue waits for a
    shared state created in between. *)
Definition extends (s s' : State) : Prop :=
  futures s' = futures s
  ∧ next_future s ≤ next_future s'
  ∧ ∃ added, queue s' = queue s ++ added
      ∧ ∀ task fut, task ∈ added → task_future task = Some fut →
          next_future s ≤ fut < next_future s'.

(** A callable that never calls [dispatchAsync], directly or in the
    callables it hands to [dispatchSync]. *)
Fixpoint posts_nothing (c : Callable) : Prop :=
  match c with
  | Return _ | Throw _ => True
  | Local _ k => ∀ v, posts_nothing (k v)
  | CallDispatchAsync _ _ => False
  | CallDispatchSync fn k => posts_nothing fn ∧ ∀ v, posts_nothing (k v)
  end.

Section Threads.
(** [AppBase::isPrimaryThread] is declared in the header and defined
    elsewhere: it is a parameter here. *)
Variable isPrimaryThread : Thread -> bool.

(** [fute.get()]: return the value of the shared state or rethrow its
    exception when it is ready; until then the calling thread waits. *)
Definition future_get (fut : Future) (s : State) : Result :=
  match futures s !! fut with
  | None => Blocked fut Return s
  | Some o => Finished o s
  end.

(** [AppBase::dispatchSync], called on thread [t]; [invoke] is the
    invocation [fn()] on that thread. *)
Definition dispatchSync_on (invoke : Callable -> State -> Result)
    (t : Thread) (fn : Callable) (s : State) : Result :=
  if isPrimaryThread t then
    invoke fn s
  else
    let '(task, s1) := packaged_task s in
    let fute := get_future task in
    let s2 := dispatchAsync (RunPackaged task fn) s1 in
    future_get fute s2.

(** The caller's continuation after a call that returns a value. *)
Definition and_then (r : Result) (k : V -> Callable)
    (continue : V -> State -> Result) : Result :=
  match r with
  | Finished (Returned v) s => continue v s
  | Finished (Thrown e) s => Finished (Thrown e) s
  | Blocked fut k' s => Blocked fut (fun v => then_ (k' v) k) s
  end.

(** Invoking a callable on thread [t]. *)
Fixpoint run (t : Thread) (c : Callable) (s : State) : Result :=
  match c with
  | Return v => Finished (Returned v) s
  | Throw e => Finished (Thrown e) s
  | Local act k =>
      let '(v, u) := act (memory s) in run t (k v) (set_memory u s)
  | CallDispatchAsync fn k => run t k (dispatchAsync (Plain fn) s)
  | CallDispatchSync fn k =>
      and_then (dispatchSync_on (run t) t fn s) k (fun v s' => run t (k v) s')
  end.

(** [app->dispatchSync( fn )] on thread [t]. *)
Definition dispatchSync (t : Thread) (fn : Callable) (s : State) : Result :=
  dispatchSync_on (run t) t fn s.

(** A thread suspended in [fute.get()] with [k] left to run looks at its
    future again: it stays suspended while the shared state is not ready,
    and otherwise goes on with the value or leaves with the exception. *)
Definition wake (t : Thread) (fut : Future) (k : V -> Callable) (s : State) : Result :=
  match futures s !! fut with
  | None => Blocked fut k s
  | Some (Returned v) => run t (k v) s
  | Some (Thrown e) => Finished (Thrown e) s
  end.

(** The closure [[&task]() { task(); }] of [dispatchSync], invoked on thread
    [t]: the callable is invoked and its outcome, a value or an exception,
    goes into the shared state of the task; no exception leaves the closure.
    [None]: the thread is suspended inside the callable and never returns
    from it. *)
Definition invoke_packaged (t : Thread) (task : Future) (fn : Callable)
    (s : State) : option State :=
  match run t fn s with
  | Finished o s' => Some (make_ready task o s')
  | Blocked _ _ _ => None
  end.

(** Modelled from the spec: the task boundary of the drain step, which is
    part of the loop defined outside the header.  A queued task is invoked;
    what a plain task returns is dropped, and when it raises, the exception
    is caught there and the remaining tasks still run. *)
Definition exec_task (t : Thread) (task : Task) (s : State) : option State :=
  match task with
  | Plain fn =>
      match run t fn s with
      | Finished _ s' => Some s'
      | Blocked _ _ _ => None
      end
  | RunPackaged fut fn => invoke_packaged t fut fn s
  end.

Fixpoint exec_tasks (t : Thread) (tasks : list Task) (s : State) : option State :=
  match tasks with
  | [] => Some s
  | task :: rest =>
      match exec_task t task s with
      | Some s' => exec_tasks t rest s'
      | None => None
      end
  end.

(** Modelled from the spec: the drain step, run once per frame by the loop
    ([AppBase::privateUpdate__], declared in the header and defined
    elsewhere).  It takes the entire current queue, then executes each task
    in first-in first-out order; tasks enqueued meanwhile wait for the next
    drain. *)
Definition drain (t : Thread) (s : State) : option State :=
  exec_tasks t (queue s) (set_queue [] s).

(** What the threads of the application do between two drains: some thread
    invokes some callable, as far as it gets. *)
Definition invocation (s s' : State) : Prop :=
  ∃ t c, s' = state_of (run t c s).

(** What may happen while the closure [own] of a call waits to be run.  The
    tasks that were taken off the queue and not yet run are kept beside the
    state.  A thread invokes a callable; tasks are taken off the front of
    the queue; or a closure that was taken off the queue, other than [own],
    is invoked, by whatever thread and in whatever order. *)
Inductive meanwhile (own : Task) : list Task * State → list Task * State → Prop :=
| meanwhile_invoke pool s t c :
    meanwhile own (pool, s) (pool, state_of (run t c s))
| meanwhile_take pool s taken rest :
    queue s = taken ++ rest →
    meanwhile own (pool, s) (pool ++ taken, set_queue rest s)
| meanwhile_closure pool s p fut fn s' :
    RunPackaged fut fn ∈ pool → RunPackaged fut fn ≠ own →
    invoke_packaged p fut fn s = Some s' →
    meanwhile own (pool, s) (pool, s').

(** What may happen once the closure has been run: a thread invokes a
    callable, or any closure is invoked. *)
Definition afterwards (s s' : State) : Prop :=
  invocation s s' ∨ ∃ p fut fn, invoke_packaged p fut fn s = Some s'.

(** While the closure [own] of the call that created [fut] waits: [fut] was
    created and is not ready, and [own] is the only task, queued or taken,
    that refers to it. *)
Definition waiting (fut : Future) (own : Task) (ps : list Task * State) : Prop :=
  fut < next_future ps.2
  ∧ futures ps.2 !! fut = None
  ∧ ∀ task : Task, task ∈ ps.1 ++ queue ps.2 →
      task_future task = Some fut → task = own.

(** Every queued closure refers to a shared state that was created, and the
    ones not yet created are not ready. *)
Definition wf (s : State) : Prop :=
  (∀ (task : Task) (fut : Future),
      task ∈ queue s → task_future task = Some fut → fut < next_future s)
  ∧ (∀ fut : Future, next_future s ≤ fut → futures s !! fut = None).

End Threads.
End App.

Arguments Outcome : clear implicits.
Arguments Callable : clear implicits.
Arguments Task : clear implicits.
Arguments State : clear implicits.
Arguments Result : clear implicits.

(** A small application: thread [0] is the primary thread; one task is
    queued, which adds [10] to the shared counter; [example_fn] returns
    twice the counter and increments it. *)
Definition example_isPrimaryThread : Thread -> bool := fun t => Nat.eqb t 0.

Definition example_fn : Callable nat nat nat :=
  Local (fun u => (2 * u, S u)) Return.

Definition example_state : State nat nat nat :=
  mkState [Plain (Local (fun u => (0, u + 10)) Return)] ∅ 0 1.

(** A callable that calls [dispatchSync] with a callable that calls
    [dispatchSync]. *)
Definition example_reentrant : Callable nat nat nat :=
  CallDispatchSync (CallDispatchSync example_fn Return) (fun v => Return (S v)).

(** A callable that increments the counter and throws [7]. *)
Definition example_failing : Callable nat nat nat :=
  Local (fun u => (0, S u)) (fun _ => Throw 7).

End Dispatch.

(** ** The application object (AppBase.h, lines 104-466)

    Only the members the properties below talk about are kept.  [float] and
    [double] values are taken as exact rationals, [uint32_t] as an integer
    reduced modulo [2^32]. *)

Module AppBase.

Definition uint32 (z : Z) : Z := (z mod 2 ^ 32)%Z.

Section Object.
(** [WindowRef] and [fs::path] come from headers that are not part of this
    file. *)
Context {WindowRef Path : Type}.

Record t : Type := mk {
  (* pure virtual members, as the class of the running app defines them *)
  impl_getWindow : WindowRef;
  impl_getNumWindows : N;
  impl_getWindowIndex : N -> WindowRef;
  impl_getFrameRate : Qc;
  impl_getAppPath : Path;
  (* data members: lines 445-450 *)
  mTimer : Qc;                (* what [mTimer.getSeconds()] reads *)
  mFrameCount : Z;
  mAverageFps : Qc;
  mFpsLastSampleFrame : Z;
  mFpsLastSampleTime : Qc;
  mFpsSampleInterval : Qc
}.

Definition getWindow (a : t) : WindowRef := impl_getWindow a.
Definition getNumWindows (a : t) : N := impl_getNumWindows a.
Definition getWindowIndex (a : t) (index : N) : WindowRef := impl_getWindowIndex a index.
Definition getFrameRate (a : t) : Qc := impl_getFrameRate a.
Definition getAppPath (a : t) : Path := impl_getAppPath a.

(** [float getAverageFps() const { return mAverageFps; }] *)
Definition getAverageFps (a : t) : Qc := mAverageFps a.

(** [double getFpsSampleInterval() const { return mFpsSampleInterval; }] *)
Definition getFpsSampleInterval (a : t) : Qc := mFpsSampleInterval a.

(** [void setFpsSampleInterval( double sampleInterval )] *)
Definition setFpsSampleInterval (sampleInterval : Qc) (a : t) : t :=
  mk (impl_getWindow a) (impl_getNumWindows a) (impl_getWindowIndex a)
     (impl_getFrameRate a) (impl_getAppPath a)
     (mTimer a) (mFrameCount a) (mAverageFps a) (mFpsLastSampleFrame a)
     (mFpsLastSampleTime a) sampleInterval.

(** [double getElapsedSeconds() const { return mTimer.getSeconds(); }] *)
Definition getElapsedSeconds (a : t) : Qc := mTimer a.

(** [uint32_t getElapsedFrames() const { return mFrameCount; }] *)
Definition getElapsedFrames (a : t) : Z := mFrameCount a.

(** *** The frame clock

    The header holds the state of the clock and its accessors; the code that
    advances it is defined elsewhere. *)

(** Modelled from the spec: the frame counter is incremented once per
    completed loop iteration, at the time [now] the timer then reads. *)
Definition countFrame (now : Qc) (a : t) : t :=
  mk (impl_getWindow a) (impl_getNumWindows a) (impl_getWindowIndex a)
     (impl_getFrameRate a) (impl_getAppPath a)
     now (uint32 (mFrameCount a + 1)) (mAverageFps a) (mFpsLastSampleFrame a)
     (mFpsLastSampleTime a) (mFpsSampleInterval a).

(** Modelled from the spec: the average fps is recomputed only when the
    elapsed time since the last sample meets or exceeds the sample interval,
    as the frames counted since that sample over the elapsed time, guarded
    against division by a zero interval; between samples the previous
    average stays. *)
Definition sampleFps (a : t) : t :=
  let now := mTimer a in
  let elapsed := (now - mFpsLastSampleTime a)%Qc in
  if decide (mFpsSampleInterval a ≤ elapsed)%Qc then
    if decide (0 < elapsed)%Qc then
      let framesPassed := uint32 (mFrameCount a - mFpsLastSampleFrame a) in
      mk (impl_getWindow a) (impl_getNumWindows a) (impl_getWindowIndex a)
         (impl_getFrameRate a) (impl_getAppPath a)
         (mTimer a) (mFrameCount a)
         (Qc_of_Z framesPassed / elapsed)%Qc (mFrameCount a)
         now (mFpsSampleInterval a)
    else a
  else a.

(** Modelled from the spec: what one frame update does to the clock. *)
Definition tick (now : Qc) (a : t) : t := sampleFps (countFrame now a).

(** The clock after the frame updates that end at the given times. *)
Definition ticks (times : list Qc) (a : t) : t :=
  foldl (fun a now => tick now a) a times.

End Object.

Arguments t : clear implicits.

(** *** The other members that the free functions call

    Floating point arithmetic, the vector and area types, [Window],
    [Renderer2d] and [Timeline] are outside this file, and some members of
    [AppBase] are declared in the header and defined elsewhere.  All of these
    are parameters, gathered in one record.  A member that returns nothing
    is given by the effect it has.  An [ivec2] is a pair of integers. *)
Section Members.
Context {WindowRef Path : Type}.
Context {Float Vec2 Area Rectf Effect Timeline Surface : Type}.
Context {RendererRef Renderer2d CGContextRef FullScreenOptions : Type}.

Record Outside : Type := mkOutside {
  (* float arithmetic, cinder/Vector.h, cinder/Area.h *)
  float_of_int : Z -> Float;
  float_half : Float;
  float_div : Float -> Float -> Float;
  vec2_of : Float -> Float -> Vec2;
  vec2_times : Vec2 -> Float -> Vec2;
  Area_of : Z -> Z -> Z -> Z -> Area;
  (* cinder/app/Window.h *)
  Window_getWidth : WindowRef -> Z;
  Window_getHeight : WindowRef -> Z;
  Window_setSize : Z * Z -> WindowRef -> Effect;
  Window_getPos : WindowRef -> Z * Z;
  Window_setPos : Z * Z -> WindowRef -> Effect;
  Window_getContentScale : WindowRef -> Float;
  Window_isFullScreen : WindowRef -> bool;
  Window_setFullScreen : bool -> FullScreenOptions -> WindowRef -> Effect;
  Window_getRenderer : WindowRef -> RendererRef;
  Window_toPixels_float : Float -> WindowRef -> Float;
  Window_toPixels_vec2 : Vec2 -> WindowRef -> Vec2;
  Window_toPixels_ivec2 : Z * Z -> WindowRef -> Z * Z;
  Window_toPixels_Area : Area -> WindowRef -> Area;
  Window_toPixels_Rectf : Rectf -> WindowRef -> Rectf;
  Window_toPoints_float : Float -> WindowRef -> Float;
  Window_toPoints_vec2 : Vec2 -> WindowRef -> Vec2;
  Window_toPoints_ivec2 : Z * Z -> WindowRef -> Z * Z;
  Window_toPoints_Area : Area -> WindowRef -> Area;
  Window_toPoints_Rectf : Rectf -> WindowRef -> Rectf;
  FullScreenOptions_default : FullScreenOptions;
  (* cinder/app/Renderer.h *)
  dynamic_pointer_cast_Renderer2d : RendererRef -> option Renderer2d;
  Renderer2d_getCgContext : Renderer2d -> CGContextRef;
  (* members of AppBase declared in the header and defined elsewhere *)
  impl_setFrameRate : Qc -> t WindowRef Path -> Effect;
  impl_getOpenFilePath :
    Path -> list String.string -> t WindowRef Path -> Path;
  impl_getSaveFilePath :
    Path -> list String.string -> t WindowRef Path -> Path;
  impl_copyWindowSurface : t WindowRef Path -> Surface;
  impl_copyWindowSurface_area : Area -> t WindowRef Path -> Surface;
  (* [*mTimeline] *)
  deref_mTimeline : t WindowRef Path -> Timeline;
  (* the effect of an empty body *)
  no_effect : Effect
}.

Variable O : Outside.
Implicit Types (a : t WindowRef Path).

(** The [WindowRef] that [getWindow()] returns is taken to point to a
    window: with no active window the call throws instead (line 282). *)

(** [RendererRef getRenderer() const { return getWindow()->getRenderer(); }] *)
Definition getRenderer a : RendererRef := Window_getRenderer O (getWindow a).

(** [int getWindowWidth() const { return getWindow()->getWidth(); }] *)
Definition getWindowWidth a : Z := Window_getWidth O (getWindow a).
(** [int getWindowHeight() const { return getWindow()->getHeight(); }] *)
Definition getWindowHeight a : Z := Window_getHeight O (getWindow a).

(** [void setWindowSize( const ivec2 &size ) { getWindow()->setSize( size ); }] *)
Definition setWindowSize (size : Z * Z) a : Effect :=
  Window_setSize O size (getWindow a).
(** [void setWindowSize( int windowWidth, int windowHeight )
      { setWindowSize( ivec2( windowWidth, windowHeight ) ); }] *)
Definition setWindowSize_xy (windowWidth windowHeight : Z) a : Effect :=
  setWindowSize (windowWidth, windowHeight) a.

(** [vec2 getWindowCenter() const
      { return vec2( (float)getWindowWidth(), (float)getWindowHeight() ) * 0.5f; }] *)
Definition getWindowCenter a : Vec2 :=
  vec2_times O
    (vec2_of O (float_of_int O (getWindowWidth a)) (float_of_int O (getWindowHeight a)))
    (float_half O).

(** [ivec2 getWindowSize() const { return ivec2( getWindowWidth(), getWindowHeight() ); }] *)
Definition getWindowSize a : Z * Z := (getWindowWidth a, getWindowHeight a).

(** [float getWindowAspectRatio() const
      { return getWindowWidth() / (float)getWindowHeight(); }] *)
Definition getWindowAspectRatio a : Float :=
  float_div O (float_of_int O (getWindowWidth a)) (float_of_int O (getWindowHeight a)).

(** [Area getWindowBounds() const
      { return Area( 0, 0, getWindowWidth(), getWindowHeight() ); }] *)
Definition getWindowBounds a : Area :=
  Area_of O 0 0 (getWindowWidth a) (getWindowHeight a).

(** [float getWindowContentScale() const { return getWindow()->getContentScale(); }] *)
Definition getWindowContentScale a : Float := Window_getContentScale O (getWindow a).

(** [ivec2 getWindowPos() const { return getWindow()->getPos(); }] *)
Definition getWindowPos a : Z * Z := Window_getPos O (getWindow a).

(** [virtual void setWindowPos( const ivec2 &windowPos )
      { getWindow()->setPos( windowPos ); }] *)
Definition setWindowPos (windowPos : Z * Z) a : Effect :=
  Window_setPos O windowPos (getWindow a).
(** [void setWindowPos( int x, int y ) { setWindowPos( ivec2( x, y ) ); }] *)
Definition setWindowPos_xy (x y : Z) a : Effect := setWindowPos (x, y) a.

(** [virtual void setFrameRate( float frameRate ) = 0;] *)
Definition setFrameRate (frameRate : Qc) a : Effect := impl_setFrameRate O frameRate a.

(** [virtual bool isFullScreen() const { return getWindow()->isFullScreen(); }] *)
Definition isFullScreen a : bool := Window_isFullScreen O (getWindow a).

(** [virtual void setFullScreen( bool fullScreen,
      const FullScreenOptions &options = FullScreenOptions() )
      { getWindow()->setFullScreen( fullScreen, options ); }] *)
Definition setFullScreen (fullScreen : bool) (options : FullScreenOptions) a : Effect :=
  Window_setFullScreen O fullScreen options (getWindow a).

Definition getOpenFilePath (initialPath : Path) (extensions : list String.string) a
    : Path :=
  impl_getOpenFilePath O initialPath extensions a.
Definition getSaveFilePath (initialPath : Path) (extensions : list String.string) a
    : Path :=
  impl_getSaveFilePath O initialPath extensions a.

(** [Timeline& timeline() { return *mTimeline; }] *)
Definition timeline a : Timeline := deref_mTimeline O a.

Definition copyWindowSurface a : Surface := impl_copyWindowSurface O a.
Definition copyWindowSurface_area (area : Area) a : Surface :=
  impl_copyWindowSurface_area O area a.

(** [virtual void restoreWindowContext() {}] *)
Definition restoreWindowContext a : Effect := no_effect O.

End Members.

Arguments Outside : clear implicits.

End AppBase.

(** ** The active application and the free functions (lines 427-428,
       461-463, 468-587) *)

Module app.

(** What a call through a pointer amounts to. *)
Inductive Access (A : Type) : Type :=
| Defined (a : A)
| NullDereference.
Arguments Defined {A} a.
Arguments NullDereference {A}.

(** [ptr->member( ... )] *)
Definition arrow {O A : Type} (ptr : option O) (member : O -> A) : Access A :=
  match ptr with
  | Some obj => Defined (member obj)
  | None => NullDereference
  end.

(** [ptr->member( ... )] for a member whose own code may dereference too. *)
Definition arrow_through {O A : Type} (ptr : option O) (member : O -> Access A)
    : Access A :=
  match ptr with
  | Some obj => member obj
  | None => NullDereference
  end.

(** [call()->member( ... )] where [call()] is itself a call through a
    pointer. *)
Definition then_arrow {O A : Type} (obj : Access O) (member : O -> A) : Access A :=
  match obj with
  | Defined o => Defined (member o)
  | NullDereference => NullDereference
  end.

Section Process.
Context {WindowRef Path Console DataSourceRef : Type}.
Context {Float Vec2 Area Rectf Effect Timeline Surface : Type}.
Context {RendererRef Renderer2d CGContextRef FullScreenOptions : Type}.

(** [Platform] is declared in cinder/app/Platform.h, which is not part of
    this file.  Of its members, the ones the free functions call are kept.
    Their code is not known here and is free to go through
    [AppBase::get()] itself, so what a call amounts to is given as a
    function of the instance pointer. *)
Record Platform : Type := mkPlatform {
  Platform_loadResource :
    Path -> option (AppBase.t WindowRef Path) -> Access DataSourceRef;
  Platform_loadResource_msw :
    Z -> String.string -> option (AppBase.t WindowRef Path) -> Access DataSourceRef;
  Platform_loadAsset :
    Path -> option (AppBase.t WindowRef Path) -> Access DataSourceRef;
  Platform_getAssetPath :
    Path -> option (AppBase.t WindowRef Path) -> Access Path;
  Platform_addAssetDirectory :
    Path -> option (AppBase.t WindowRef Path) -> Access Effect;
  Platform_console : option (AppBase.t WindowRef Path) -> Access Console
}.

(** The pointers the free functions start from: the static
    [AppBase::sInstance], and what [Platform::get()] returns.  [None] is the
    null pointer. *)
Record Process : Type := mkProcess {
  sInstance : option (AppBase.t WindowRef Path);
  Platform_get : option Platform
}.

Variable O :
  AppBase.Outside WindowRef Path Float Vec2 Area Rectf Effect Timeline Surface
    RendererRef Renderer2d CGContextRef FullScreenOptions.

(** [static AppBase* get() { return sInstance; }] *)
Definition get (p : Process) : option (AppBase.t WindowRef Path) := sInstance p.

(** Lines 472-509: [inline WindowRef getWindow()
      { return AppBase::get()->getWindow(); }]
    and the functions after it, each [AppBase::get()->member( ... )]. *)
Definition getWindow (p : Process) : Access WindowRef :=
  arrow (get p) AppBase.getWindow.
Definition getNumWindows (p : Process) : Access N :=
  arrow (get p) AppBase.getNumWindows.
Definition getWindowIndex (index : N) (p : Process) : Access WindowRef :=
  arrow (get p) (fun a => AppBase.getWindowIndex a index).
Definition getWindowWidth (p : Process) : Access Z :=
  arrow (get p) (AppBase.getWindowWidth O).
Definition setWindowPos (windowPos : Z * Z) (p : Process) : Access Effect :=
  arrow (get p) (AppBase.setWindowPos O windowPos).
(** [inline void setWindowPos( int x, int y ) { setWindowPos( ivec2( x, y ) ); }] *)
Definition setWindowPos_xy (x y : Z) (p : Process) : Access Effect :=
  setWindowPos (x, y) p.
Definition getWindowHeight (p : Process) : Access Z :=
  arrow (get p) (AppBase.getWindowHeight O).
Definition setWindowSize_xy (windowWidth windowHeight : Z) (p : Process)
    : Access Effect :=
  arrow (get p) (AppBase.setWindowSize_xy O windowWidth windowHeight).
Definition getWindowCenter (p : Process) : Access Vec2 :=
  arrow (get p) (AppBase.getWindowCenter O).
Definition getWindowSize (p : Process) : Access (Z * Z) :=
  arrow (get p) (AppBase.getWindowSize O).
Definition getWindowPos (p : Process) : Access (Z * Z) :=
  arrow (get p) (AppBase.getWindowPos O).
Definition getWindowAspectRatio (p : Process) : Access Float :=
  arrow (get p) (AppBase.getWindowAspectRatio O).
Definition getWindowBounds (p : Process) : Access Area :=
  arrow (get p) (AppBase.getWindowBounds O).
Definition getWindowContentScale (p : Process) : Access Float :=
  arrow (get p) (AppBase.getWindowContentScale O).
Definition getFrameRate (p : Process) : Access Qc :=
  arrow (get p) AppBase.getFrameRate.
Definition setFrameRate (frameRate : Qc) (p : Process) : Access Effect :=
  arrow (get p) (AppBase.setFrameRate O frameRate).
Definition isFullScreen (p : Process) : Access bool :=
  arrow (get p) (AppBase.isFullScreen O).
(** [inline void setFullScreen( bool fullScreen = true )
      { AppBase::get()->setFullScreen( fullScreen ); }] *)
Definition setFullScreen (fullScreen : bool) (p : Process) : Access Effect :=
  arrow (get p)
    (AppBase.setFullScreen O fullScreen (AppBase.FullScreenOptions_default O)).

(** Lines 512-530: [inline float toPixels( float s )
      { return getWindow()->toPixels( s ); }]
    and the functions after it, each through the free [getWindow()]. *)
Definition toPixels_float (s : Float) (p : Process) : Access Float :=
  then_arrow (getWindow p) (AppBase.Window_toPixels_float O s).
Definition toPixels_vec2 (s : Vec2) (p : Process) : Access Vec2 :=
  then_arrow (getWindow p) (AppBase.Window_toPixels_vec2 O s).
Definition toPixels_ivec2 (s : Z * Z) (p : Process) : Access (Z * Z) :=
  then_arrow (getWindow p) (AppBase.Window_toPixels_ivec2 O s).
Definition toPixels_Area (a : Area) (p : Process) : Access Area :=
  then_arrow (getWindow p) (AppBase.Window_toPixels_Area O a).
Definition toPixels_Rectf (a : Rectf) (p : Process) : Access Rectf :=
  then_arrow (getWindow p) (AppBase.Window_toPixels_Rectf O a).
Definition toPoints_float (s : Float) (p : Process) : Access Float :=
  then_arrow (getWindow p) (AppBase.Window_toPoints_float O s).
Definition toPoints_vec2 (s : Vec2) (p : Process) : Access Vec2 :=
  then_arrow (getWindow p) (AppBase.Window_toPoints_vec2 O s).
Definition toPoints_ivec2 (s : Z * Z) (p : Process) : Access (Z * Z) :=
  then_arrow (getWindow p) (AppBase.Window_toPoints_ivec2 O s).
Definition toPoints_Area (a : Area) (p : Process) : Access Area :=
  then_arrow (getWindow p) (AppBase.Window_toPoints_Area O a).
Definition toPoints_Rectf (a : Rectf) (p : Process) : Access Rectf :=
  then_arrow (getWindow p) (AppBase.Window_toPoints_Rectf O a).

(** Lines 533-535. *)
Definition getElapsedSeconds (p : Process) : Access Qc :=
  arrow (get p) AppBase.getElapsedSeconds.
Definition getElapsedFrames (p : Process) : Access Z :=
  arrow (get p) AppBase.getElapsedFrames.

(** Lines 537-550 and 570: [inline DataSourceRef loadAsset( const fs::path
      &relativePath ) { return Platform::get()->loadAsset( relativePath ); }]
    and its neighbours, each [Platform::get()->member( ... )];
    [loadResource] has one form on Windows and another elsewhere. *)
Definition loadResource_msw (mswID : Z) (mswType : String.string) (p : Process)
    : Access DataSourceRef :=
  arrow_through (Platform_get p)
    (fun pl => Platform_loadResource_msw pl mswID mswType (sInstance p)).
Definition loadResource (resourcePath : Path) (p : Process) : Access DataSourceRef :=
  arrow_through (Platform_get p)
    (fun pl => Platform_loadResource pl resourcePath (sInstance p)).
Definition loadAsset (relativePath : Path) (p : Process) : Access DataSourceRef :=
  arrow_through (Platform_get p)
    (fun pl => Platform_loadAsset pl relativePath (sInstance p)).
Definition getAssetPath (relativePath : Path) (p : Process) : Access Path :=
  arrow_through (Platform_get p)
    (fun pl => Platform_getAssetPath pl relativePath (sInstance p)).
Definition addAssetDirectory (dirPath : Path) (p : Process) : Access Effect :=
  arrow_through (Platform_get p)
    (fun pl => Platform_addAssetDirectory pl dirPath (sInstance p)).
Definition console (p : Process) : Access Console :=
  arrow_through (Platform_get p) (fun pl => Platform_console pl (sInstance p)).

(** Lines 553-580. *)
Definition getAppPath (p : Process) : Access Path :=
  arrow (get p) AppBase.getAppPath.
Definition getOpenFilePath (initialPath : Path) (extensions : list String.string)
    (p : Process) : Access Path :=
  arrow (get p) (AppBase.getOpenFilePath O initialPath extensions).
Definition getSaveFilePath (initialPath : Path) (extensions : list String.string)
    (p : Process) : Access Path :=
  arrow (get p) (AppBase.getSaveFilePath O initialPath extensions).
Definition timeline (p : Process) : Access Timeline :=
  arrow (get p) (AppBase.timeline O).
Definition copyWindowSurface (p : Process) : Access Surface :=
  arrow (get p) (AppBase.copyWindowSurface O).
Definition copyWindowSurface_area (area : Area) (p : Process) : Access Surface :=
  arrow (get p) (AppBase.copyWindowSurface_area O area).
Definition restoreWindowContext (p : Process) : Access Effect :=
  arrow (get p) (AppBase.restoreWindowContext O).

(** Line 584, on Cocoa only: [inline ::CGContextRef createWindowCgContext()
      { return (std::dynamic_pointer_cast<Renderer2d>(
                  AppBase::get()->getRenderer()))->getCgContext(); }];
    the cast yields the null pointer for a renderer of another class. *)
Definition createWindowCgContext (p : Process) : Access CGContextRef :=
  arrow_through (get p)
    (fun a =>
       arrow (AppBase.dynamic_pointer_cast_Renderer2d O (AppBase.getRenderer O a))
         (AppBase.Renderer2d_getCgContext O)).

(** The free function [f] is the member function [member] called through
    the instance pointer, unchecked. *)
Definition forwards_to {A : Type} (f : Process -> Access A)
    (member : AppBase.t WindowRef Path -> A) : Prop :=
  ∀ p, f p = match sInstance p with
             | Some a => Defined (member a)
             | None => NullDereference
             end.

(** The free function [f] is the member [member] of the platform called
    through what [Platform::get()] returns. *)
Definition forwards_to_platform {A : Type} (f : Process -> Access A)
    (member : Platform -> option (AppBase.t WindowRef Path) -> Access A) : Prop :=
  ∀ p, f p = match Platform_get p with
             | Some pl => member pl (sInstance p)
             | None => NullDereference
             end.

End Process.

Arguments Platform : clear implicits.
Arguments Process : clear implicits.

(** A process in which the platform exists and no application is live; this
    platform answers without looking at the application. *)
Definition example_platform : Platform nat nat nat nat unit :=
  mkPlatform
    (fun path _ => Defined (path + 300)) (fun id _ _ => Defined (Z.to_nat id))
    (fun path _ => Defined (path + 100)) (fun path _ => Defined path)
    (fun _ _ => Defined tt) (fun _ => Defined 1).

Definition example_no_instance : Process nat nat nat nat unit :=
  mkProcess None (Some example_platform).

(** An application object, and a process in which it is the live one. *)
Definition example_app : AppBase.t nat nat :=
  AppBase.mk 1 1%N (fun _ => 1) (Qc_of_Z 60) 0
    (Qc_of_Z 2) 120%Z (Qc_of_Z 60) 60%Z (Qc_of_Z 1) (Qc_of_Z 1).

Definition example_running : Process nat nat nat nat unit :=
  mkProcess (Some example_app) (Some example_platform).

End app.

(** ** The startup settings (AppBase.h, lines 106-220)

    [AppBase::Settings], with the member functions the header defines.
    [Window::Format], [RendererRef], [DisplayRef] and [FullScreenOptions]
    come from headers that are not part of this file: the types are
    parameters, and so are the members of [Window::Format] the settings
    forward to.  An [ivec2] is a pair of integers. *)

Module Settings.

Section Settings.
Context {Format RendererRef DisplayRef FullScreenOptions : Type}.

(** The members of [Window::Format] that [Settings] calls; a setter is
    given by the format it leaves. *)
Record FormatMembers : Type := mkFormatMembers {
  Format_setSize : Z * Z -> Format -> Format;
  Format_getSize : Format -> Z * Z;
  Format_setPos : Z * Z -> Format -> Format;
  Format_getPos : Format -> Z * Z;
  Format_isPosSpecified : Format -> bool;
  Format_unspecifyPos : Format -> Format;
  Format_isFullScreen : Format -> bool;
  Format_setFullScreen : bool -> FullScreenOptions -> Format -> Format;
  Format_isResizable : Format -> bool;
  Format_setResizable : bool -> Format -> Format;
  Format_isBorderless : Format -> bool;
  Format_setBorderless : bool -> Format -> Format;
  Format_isAlwaysOnTop : Format -> bool;
  Format_setAlwaysOnTop : bool -> Format -> Format;
  Format_getDisplay : Format -> DisplayRef;
  Format_setDisplay : DisplayRef -> Format -> Format
}.

Variable F : FormatMembers.

(** The data members, lines 206-217. *)
Record t : Type := mk {
  mWindowFormats : list Format;
  mDefaultWindowFormat : Format;
  mDefaultRenderer : RendererRef;
  mTitle : String.string;
  mCommandLineArgs : list String.string;
  mFrameRateEnabled : bool;
  mFrameRate : Qc;
  mPowerManagement : bool;
  mEnableHighDensityDisplay : bool;
  mEnableMultiTouch : bool;
  mShouldQuit : bool
}.

(** [mDefaultWindowFormat.member( ... )] for a member that changes the
    format. *)
Definition on_default_format (member : Format -> Format) (s : t) : t :=
  mk (mWindowFormats s) (member (mDefaultWindowFormat s)) (mDefaultRenderer s)
     (mTitle s) (mCommandLineArgs s) (mFrameRateEnabled s) (mFrameRate s)
     (mPowerManagement s) (mEnableHighDensityDisplay s) (mEnableMultiTouch s)
     (mShouldQuit s).

Definition setWindowSize (size : Z * Z) (s : t) : t :=
  on_default_format (Format_setSize F size) s.
Definition setWindowSize_xy (windowSizeX windowSizeY : Z) (s : t) : t :=
  on_default_format (Format_setSize F (windowSizeX, windowSizeY)) s.
Definition getWindowSize (s : t) : Z * Z := Format_getSize F (mDefaultWindowFormat s).

Definition getWindowPos (s : t) : Z * Z := Format_getPos F (mDefaultWindowFormat s).
Definition setWindowPos_xy (windowPosX windowPosY : Z) (s : t) : t :=
  on_default_format (Format_setPos F (windowPosX, windowPosY)) s.
Definition setWindowPos (windowPos : Z * Z) (s : t) : t :=
  on_default_format (Format_setPos F windowPos) s.
Definition isWindowPosSpecified (s : t) : bool :=
  Format_isPosSpecified F (mDefaultWindowFormat s).
Definition unspecifyWindowPos (s : t) : t :=
  on_default_format (Format_unspecifyPos F) s.

Definition isFullScreen (s : t) : bool := Format_isFullScreen F (mDefaultWindowFormat s).
Definition setFullScreen (fullScreen : bool) (options : FullScreenOptions) (s : t) : t :=
  on_default_format (Format_setFullScreen F fullScreen options) s.

Definition isResizable (s : t) : bool := Format_isResizable F (mDefaultWindowFormat s).
Definition setResizable (resizable : bool) (s : t) : t :=
  on_default_format (Format_setResizable F resizable) s.
Definition isBorderless (s : t) : bool := Format_isBorderless F (mDefaultWindowFormat s).
Definition setBorderless (borderless : bool) (s : t) : t :=
  on_default_format (Format_setBorderless F borderless) s.
Definition isAlwaysOnTop (s : t) : bool := Format_isAlwaysOnTop F (mDefaultWindowFormat s).
Definition setAlwaysOnTop (alwaysOnTop : bool) (s : t) : t :=
  on_default_format (Format_setAlwaysOnTop F alwaysOnTop) s.

Definition getDisplay (s : t) : DisplayRef := Format_getDisplay F (mDefaultWindowFormat s).
Definition setDisplay (display : DisplayRef) (s : t) : t :=
  on_default_format (Format_setDisplay F display) s.

(** [void setDefaultRenderer( const RendererRef &renderer ) { mDefaultRenderer = renderer; }] *)
Definition setDefaultRenderer (renderer : RendererRef) (s : t) : t :=
  mk (mWindowFormats s) (mDefaultWindowFormat s) renderer
     (mTitle s) (mCommandLineArgs s) (mFrameRateEnabled s) (mFrameRate s)
     (mPowerManagement s) (mEnableHighDensityDisplay s) (mEnableMultiTouch s)
     (mShouldQuit s).
Definition getDefaultRenderer (s : t) : RendererRef := mDefaultRenderer s.

Definition getWindowFormats (s : t) : list Format := mWindowFormats s.

(** [void enableHighDensityDisplay( bool enable = true ) { mEnableHighDensityDisplay = enable; }] *)
Definition enableHighDensityDisplay (enable : bool) (s : t) : t :=
  mk (mWindowFormats s) (mDefaultWindowFormat s) (mDefaultRenderer s)
     (mTitle s) (mCommandLineArgs s) (mFrameRateEnabled s) (mFrameRate s)
     (mPowerManagement s) enable (mEnableMultiTouch s) (mShouldQuit s).
Definition isHighDensityDisplayEnabled (s : t) : bool := mEnableHighDensityDisplay s.

Definition getDefaultWindowFormat (s : t) : Format := mDefaultWindowFormat s.
(** [void setDefaultWindowFormat( const Window::Format &format ) { mDefaultWindowFormat = format; }] *)
Definition setDefaultWindowFormat (format : Format) (s : t) : t :=
  on_default_format (fun _ => format) s.

(** [void enableMultiTouch( bool enable = true ) { mEnableMultiTouch = enable; }] *)
Definition enableMultiTouch (enable : bool) (s : t) : t :=
  mk (mWindowFormats s) (mDefaultWindowFormat s) (mDefaultRenderer s)
     (mTitle s) (mCommandLineArgs s) (mFrameRateEnabled s) (mFrameRate s)
     (mPowerManagement s) (mEnableHighDensityDisplay s) enable (mShouldQuit s).
Definition isMultiTouchEnabled (s : t) : bool := mEnableMultiTouch s.

Definition isPowerManagementEnabled (s : t) : bool := mPowerManagement s.

Definition getTitle (s : t) : String.string := mTitle s.
(** [void setTitle( const std::string &title ) { mTitle = title; }] *)
Definition setTitle (title : String.string) (s : t) : t :=
  mk (mWindowFormats s) (mDefaultWindowFormat s) (mDefaultRenderer s)
     title (mCommandLineArgs s) (mFrameRateEnabled s) (mFrameRate s)
     (mPowerManagement s) (mEnableHighDensityDisplay s) (mEnableMultiTouch s)
     (mShouldQuit s).
Definition getCommandLineArgs (s : t) : list String.string := mCommandLineArgs s.

Definition isFrameRateEnabled (s : t) : bool := mFrameRateEnabled s.
Definition getFrameRate (s : t) : Qc := mFrameRate s.
Definition shouldQuit (s : t) : bool := mShouldQuit s.

(** A call of one of the setters above, and a program of such calls, as the
    settings function of an application makes them before launch. *)
Inductive Call : Type :=
| call_setWindowSize (size : Z * Z)
| call_setWindowSize_xy (x y : Z)
| call_setWindowPos (pos : Z * Z)
| call_setWindowPos_xy (x y : Z)
| call_unspecifyWindowPos
| call_setFullScreen (fullScreen : bool) (options : FullScreenOptions)
| call_setResizable (resizable : bool)
| call_setBorderless (borderless : bool)
| call_setAlwaysOnTop (alwaysOnTop : bool)
| call_setDisplay (display : DisplayRef)
| call_setDefaultRenderer (renderer : RendererRef)
| call_enableHighDensityDisplay (enable : bool)
| call_setDefaultWindowFormat (format : Format)
| call_enableMultiTouch (enable : bool)
| call_setTitle (title : String.string).

Definition call (c : Call) (s : t) : t :=
  match c with
  | call_setWindowSize size => setWindowSize size s
  | call_setWindowSize_xy x y => setWindowSize_xy x y s
  | call_setWindowPos pos => setWindowPos pos s
  | call_setWindowPos_xy x y => setWindowPos_xy x y s
  | call_unspecifyWindowPos => unspecifyWindowPos s
  | call_setFullScreen fullScreen options => setFullScreen fullScreen options s
  | call_setResizable resizable => setResizable resizable s
  | call_setBorderless borderless => setBorderless borderless s
  | call_setAlwaysOnTop alwaysOnTop => setAlwaysOnTop alwaysOnTop s
  | call_setDisplay display => setDisplay display s
  | call_setDefaultRenderer renderer => setDefaultRenderer renderer s
  | call_enableHighDensityDisplay enable => enableHighDensityDisplay enable s
  | call_setDefaultWindowFormat format => setDefaultWindowFormat format s
  | call_enableMultiTouch enable => enableMultiTouch enable s
  | call_setTitle title => setTitle title s
  end.

Definition calls (cs : list Call) (s : t) : t := foldl (fun s c => call c s) s cs.

(** The calls that forward to a member of the default window format. *)
Definition on_window (c : Call) : bool :=
  match c with
  | call_setDefaultRenderer _ | call_enableHighDensityDisplay _
  | call_enableMultiTouch _ | call_setTitle _ => false
  | _ => true
  end.

(** What a window call does to the default window format. *)
Definition format_after (c : Call) (format : Format) : Format :=
  match c with
  | call_setWindowSize size => Format_setSize F size format
  | call_setWindowSize_xy x y => Format_setSize F (x, y) format
  | call_setWindowPos pos => Format_setPos F pos format
  | call_setWindowPos_xy x y => Format_setPos F (x, y) format
  | call_unspecifyWindowPos => Format_unspecifyPos F format
  | call_setFullScreen fullScreen options => Format_setFullScreen F fullScreen options format
  | call_setResizable resizable => Format_setResizable F resizable format
  | call_setBorderless borderless => Format_setBorderless F borderless format
  | call_setAlwaysOnTop alwaysOnTop => Format_setAlwaysOnTop F alwaysOnTop format
  | call_setDisplay display => Format_setDisplay F display format
  | call_setDefaultWindowFormat format' => format'
  | _ => format
  end.

End Settings.

Arguments FormatMembers : clear implicits.
Arguments t : clear implicits.
Arguments Call : clear implicits.

End Settings.

(** * Properties *)

(** ** Event combiners *)

Section CombinerFacts.
Import Combiner.
Context {W : Type}.
Implicit Types (w : W) (log : list nat).

(** Each loop visits the whole range: its result is the accumulator folded
    over the results of all slots, and its final state is the one reached by
    invoking every slot. *)
Lemma or_loop_spec (range : Range W bool) handled w :
  or_loop range handled w =
    (foldl (fun h (r : bool) => if r then true else h) handled (slot_results range w),
     invoke_all range w).
Proof.
  revert handled w. induction range as [|f rest IH]; intros handled w; simpl.
  - reflexivity.
  - destruct (f w) as [r w']. simpl. apply IH.
Qed.

Lemma and_loop_spec (range : Range W bool) result w :
  and_loop range result w =
    (foldl (fun a (r : bool) => if r then a else false) result (slot_results range w),
     invoke_all range w).
Proof.
  revert result w. induction range as [|f rest IH]; intros result w; simpl.
  - reflexivity.
  - destruct (f w) as [r w']. simpl. apply IH.
Qed.

Lemma mask_loop_spec `{Bitmask T} (range : Range W T) mask w :
  mask_loop range mask w =
    (foldl mask_and mask (slot_results range w), invoke_all range w).
Proof.
  revert mask w. induction range as [|f rest IH]; intros mask w; simpl.
  - reflexivity.
  - destruct (f w) as [r w']. simpl. apply IH.
Qed.

Lemma fold_or_existsb (rs : list bool) h :
  foldl (fun h (r : bool) => if r then true else h) h rs = existsb id rs || h.
Proof.
  revert h. induction rs as [|r rs IH]; intros h; simpl; [done|].
  rewrite IH. destruct r, h; simpl; by rewrite ?orb_true_r, ?orb_false_r.
Qed.

Lemma fold_and_forallb (rs : list bool) a :
  foldl (fun a (r : bool) => if r then a else false) a rs = forallb id rs && a.
Proof.
  revert a. induction rs as [|r rs IH]; intros a; simpl; [done|].
  rewrite IH. destruct r, a; simpl; by rewrite ?andb_true_r, ?andb_false_r.
Qed.

Lemma fold_land_testbit (rs : list Z) (m : Z) (i : Z) :
  Z.testbit (foldl Z.land m rs) i = Z.testbit m i && forallb (fun r => Z.testbit r i) rs.
Proof.
  revert m. induction rs as [|r rs IH]; intros m; simpl.
  - by rewrite andb_true_r.
  - rewrite IH, Z.land_spec. by rewrite andb_assoc.
Qed.

Lemma slot_results_nil_inv {R} (range : Range W R) w :
  slot_results range w = [] → range = [].
Proof. destruct range as [|f rest]; [done|]. simpl. by destruct (f w). Qed.

Lemma slot_results_length {R} (range : Range W R) w :
  length (slot_results range w) = length range.
Proof.
  revert w. induction range as [|f rest IH]; intros w; simpl; [done|].
  destruct (f w) as [r w']. simpl. by rewrite IH.
Qed.

(** The three combiners, by what they return and the state they leave. *)
Lemma BooleanOrEventCombiner_spec (range : Range W bool) w :
  BooleanOrEventCombiner range w =
    (match range with [] => true | _ => existsb id (slot_results range w) end,
     invoke_all range w).
Proof.
  unfold BooleanOrEventCombiner. rewrite or_loop_spec, fold_or_existsb.
  destruct range; simpl; [done|]. by rewrite orb_false_r.
Qed.

Lemma BooleanAndEventCombiner_spec (range : Range W bool) w :
  BooleanAndEventCombiner range w =
    (forallb id (slot_results range w), invoke_all range w).
Proof.
  unfold BooleanAndEventCombiner. rewrite and_loop_spec, fold_and_forallb.
  by rewrite andb_true_r.
Qed.

Lemma BitwiseAndEventCombiner_spec `{Bitmask T} (range : Range W T) w :
  BitwiseAndEventCombiner range w =
    (match slot_results range w with
     | [] => mask_zero
     | r :: rs => foldl mask_and r rs
     end, invoke_all range w).
Proof.
  destruct range as [|f rest]; simpl; [done|].
  destruct (f w) as [r w']. apply mask_loop_spec.
Qed.

(** Invoking every slot of a logged range appends the positions of the
    range, each once and in order, whatever the slots return. *)
Lemma invoke_all_logged_from {R} (range : Range W R) (n : nat) w log :
  invoke_all (imap (fun i => logged (n + i)) range) (w, log) =
    (invoke_all range w, log ++ seq n (length range)).
Proof.
  revert n w log. induction range as [|f rest IH]; intros n w log; simpl.
  - by rewrite app_nil_r.
  - rewrite Nat.add_0_r. destruct (f w) as [r w'].
    rewrite (imap_ext _ (fun i => logged (S n + i))); last first.
    { intros i x _. simpl. f_equal. lia. }
    rewrite IH. by rewrite <- app_assoc.
Qed.

Lemma slot_results_logged_from {R} (range : Range W R) (n : nat) w log :
  slot_results (imap (fun i => logged (n + i)) range) (w, log) =
    slot_results range w.
Proof.
  revert n w log. induction range as [|f rest IH]; intros n w log; simpl.
  - done.
  - destruct (f w) as [r w']. f_equal.
    rewrite (imap_ext _ (fun i => logged (S n + i))); last first.
    { intros i x _. simpl. f_equal. lia. }
    apply IH.
Qed.

Lemma slot_results_logged {R} (range : Range W R) w :
  slot_results (logged_range range) (w, []) = slot_results range w.
Proof. apply (slot_results_logged_from range 0 w []). Qed.

Lemma invoke_all_logged {R} (range : Range W R) w :
  invoke_all (logged_range range) (w, []) =
    (invoke_all range w, seq 0 (length range)).
Proof. apply (invoke_all_logged_from range 0 w []). Qed.

Lemma times_invoked_seq (i n len : nat) :
  times_invoked i (seq n len) = if decide (n ≤ i < n + len) then 1 else 0.
Proof.
  unfold times_invoked. revert n. induction len as [|len IH]; intros n; simpl.
  - case_decide; [lia|done].
  - rewrite filter_cons. case_decide as Hn.
    + subst. simpl. rewrite IH. repeat case_decide; lia.
    + rewrite IH. repeat case_decide; lia.
Qed.

End CombinerFacts.

Section CombinerClaims.
Import Combiner.
Context {W : Type}.
Implicit Types (w : W).

(** C4: on an empty range every combiner returns its identity: [true] for
    [BooleanOrEventCombiner] and [BooleanAndEventCombiner], and [0] for
    [BitwiseAndEventCombiner]; no state is touched. *)
Theorem combiners_on_empty_range `{Bitmask T} w :
  BooleanOrEventCombiner [] w = (true, w)
  ∧ BooleanAndEventCombiner [] w = (true, w)
  ∧ BitwiseAndEventCombiner (T := T) [] w = (mask_zero, w)
  ∧ BitwiseAndEventCombiner (T := Z) [] w = (0%Z, w).
Proof. repeat split. Qed.

(** C5: on a range that is not empty, [BooleanOrEventCombiner] returns the
    boolean OR of the results of all slots, [BooleanAndEventCombiner] their
    boolean AND, and [BitwiseAndEventCombiner] their bitwise AND: bit [i] of
    its result is set exactly when bit [i] of every result is. *)
Theorem combiners_fold_all_results
    (bools : Range W bool) (masks : Range W Z) w :
  bools ≠ [] → masks ≠ [] →
  (BooleanOrEventCombiner bools w).1 = existsb id (slot_results bools w)
  ∧ (BooleanAndEventCombiner bools w).1 = forallb id (slot_results bools w)
  ∧ ∀ i, Z.testbit (BitwiseAndEventCombiner masks w).1 i
         = forallb (fun r => Z.testbit r i) (slot_results masks w).
Proof.
  intros Hb Hm. split_and!.
  - rewrite BooleanOrEventCombiner_spec. by destruct bools.
  - by rewrite BooleanAndEventCombiner_spec.
  - intros i. rewrite BitwiseAndEventCombiner_spec. simpl.
    destruct (slot_results masks w) as [|r rs] eqn:Hrs.
    + by apply slot_results_nil_inv in Hrs.
    + simpl. apply fold_land_testbit.
Qed.

(** C6: applied to a range whose slots log their invocations, each of the
    three combiners leaves the log [0, 1, ..., n-1] of all [n] positions of
    the range, in which every slot of the range occurs exactly once and
    nothing else occurs, and it leaves the state that invoking all slots
    leaves; logging changes no result.  This holds for all slots, whatever
    they return. *)
Theorem combiners_invoke_every_slot_once `{Bitmask T}
    (bools : Range W bool) (masks : Range W T) w :
  BooleanOrEventCombiner (logged_range bools) (w, [])
    = ((BooleanOrEventCombiner bools w).1,
       (invoke_all bools w, seq 0 (length bools)))
  ∧ BooleanAndEventCombiner (logged_range bools) (w, [])
    = ((BooleanAndEventCombiner bools w).1,
       (invoke_all bools w, seq 0 (length bools)))
  ∧ BitwiseAndEventCombiner (logged_range masks) (w, [])
    = ((BitwiseAndEventCombiner masks w).1,
       (invoke_all masks w, seq 0 (length masks)))
  ∧ ∀ n i, times_invoked i (seq 0 n) = if decide (i < n) then 1 else 0.
Proof.
  split_and!.
  - rewrite !BooleanOrEventCombiner_spec, invoke_all_logged, slot_results_logged.
    simpl. by destruct bools.
  - by rewrite !BooleanAndEventCombiner_spec, invoke_all_logged, slot_results_logged.
  - by rewrite !BitwiseAndEventCombiner_spec, invoke_all_logged, slot_results_logged.
  - intros n i. rewrite times_invoked_seq. repeat case_decide; lia.
Qed.

End CombinerClaims.

(** ** Dispatch onto the primary thread *)

Section DispatchFacts.
Import Dispatch.
Context {U V E : Type}.
Variable isPrimaryThread : Thread -> bool.

Local Abbreviation Callable := (Callable U V E).
Local Abbreviation State := (State U V E).
Local Abbreviation Task := (Task U V E).
Local Abbreviation run := (run isPrimaryThread).
Local Abbreviation dispatchSync := (dispatchSync isPrimaryThread).
Local Abbreviation wake := (wake isPrimaryThread).
Local Abbreviation exec_task := (exec_task isPrimaryThread).
Local Abbreviation invoke_packaged := (invoke_packaged isPrimaryThread).
Local Abbreviation exec_tasks := (exec_tasks isPrimaryThread).
Local Abbreviation drain := (drain isPrimaryThread).

Implicit Types (s : State) (c fn : Callable) (t p : Thread) (fut : Future).

Lemma extends_refl s : extends s s.
Proof.
  split_and!; [done..|]. exists []. split; [by rewrite app_nil_r|].
  intros ?? Hin. by apply elem_of_nil in Hin.
Qed.

Lemma extends_trans s1 s2 s3 : extends s1 s2 → extends s2 s3 → extends s1 s3.
Proof.
  intros (Hf1 & Hn1 & a1 & Hq1 & Ha1) (Hf2 & Hn2 & a2 & Hq2 & Ha2).
  split_and!; [congruence|lia|].
  exists (a1 ++ a2). split; [by rewrite Hq2, Hq1, app_assoc|].
  intros task fut [Hin|Hin]%elem_of_app Hfut.
  - specialize (Ha1 _ _ Hin Hfut). lia.
  - specialize (Ha2 _ _ Hin Hfut). lia.
Qed.

Lemma extends_dispatchAsync_plain fn s : extends s (dispatchAsync (Plain fn) s).
Proof.
  split_and!; [done..|]. exists [Plain fn]. split; [done|].
  intros task fut ->%list_elem_of_singleton [=].
Qed.

Lemma extends_set_memory u s : extends s (set_memory u s).
Proof. apply (extends_refl s). Qed.

(** Invoking a callable, on whatever thread, only posts tasks and creates
    shared states. *)
Lemma run_extends t c s : extends s (state_of (run t c s)).
Proof.
  revert s. induction c as [v|e|act k IH|fn IHfn k IHk|fn IHfn k IHk]; intros s; simpl.
  - apply extends_refl.
  - apply extends_refl.
  - destruct (act (memory s)) as [v u].
    eapply extends_trans; [apply (extends_set_memory u)|apply IH].
  - eapply extends_trans; [apply extends_dispatchAsync_plain|apply IHk].
  - unfold dispatchSync_on. destruct (isPrimaryThread t).
    + specialize (IHfn s). destruct (Dispatch.run _ t fn s) as [[v|e] s'|fut' k' s']; simpl in *.
      * eapply extends_trans; [exact IHfn|apply IHk].
      * exact IHfn.
      * exact IHfn.
    + simpl. unfold future_get, get_future. simpl.
      assert (extends s (dispatchAsync (RunPackaged (next_future s) fn) (packaged_task s).2)) as Hext.
      { split_and!; simpl; [done|lia|]. exists [RunPackaged (next_future s) fn].
        split; [done|]. intros task fut ->%list_elem_of_singleton [= <-]. lia. }
      destruct (futures s !! next_future s) as [[v|e]|]; simpl.
      * eapply extends_trans; [exact Hext|apply IHk].
      * exact Hext.
      * exact Hext.
Qed.

(** On the primary thread an invocation always ends: it is never suspended,
    however deep the calls to [dispatchSync] nest. *)
Lemma run_primary_finished p c s :
  isPrimaryThread p = true → ∃ o s', run p c s = Finished o s'.
Proof.
  intros Hp. revert s.
  induction c as [v|e|act k IH|fn IHfn k IHk|fn IHfn k IHk]; intros s; simpl.
  - eauto.
  - eauto.
  - destruct (act (memory s)) as [v u]. apply IH.
  - apply IHk.
  - unfold dispatchSync_on. rewrite Hp.
    destruct (IHfn s) as ([v|e] & s' & ->); simpl; [apply IHk|eauto].
Qed.

(** On the primary thread no shared state is created. *)
Lemma run_primary_next_future p c s :
  isPrimaryThread p = true → next_future (state_of (run p c s)) = next_future s.
Proof.
  intros Hp. revert s.
  induction c as [v|e|act k IH|fn IHfn k IHk|fn IHfn k IHk]; intros s; simpl.
  - done.
  - done.
  - destruct (act (memory s)) as [v u]. by rewrite IH.
  - by rewrite IHk.
  - unfold dispatchSync_on. rewrite Hp. specialize (IHfn s).
    destruct (Dispatch.run _ p fn s) as [[v|e] s'|fut' k' s']; simpl in *; [|done..].
    by rewrite IHk.
Qed.

Lemma run_primary_queue p c s :
  isPrimaryThread p = true → posts_nothing c →
  queue (state_of (run p c s)) = queue s.
Proof.
  intros Hp. revert s.
  induction c as [v|e|act k IH|fn IHfn k IHk|fn IHfn k IHk]; intros s Hc; simpl in *.
  - done.
  - done.
  - destruct (act (memory s)) as [v u]. by rewrite IH.
  - done.
  - destruct Hc as [Hfn Hk]. unfold dispatchSync_on. rewrite Hp.
    specialize (IHfn s Hfn).
    destruct (Dispatch.run _ p fn s) as [[v|e] s'|fut' k' s']; simpl in *; [|done..].
    by rewrite IHk.
Qed.

(** Well-formedness is kept by every invocation. *)
Lemma extends_wf s s' : extends s s' → wf s → wf s'.
Proof.
  intros (Hf & Hn & added & Hq & Ha) [Hw1 Hw2]. split.
  - intros task fut Hin Hfut. rewrite Hq in Hin.
    apply elem_of_app in Hin as [Hin|Hin].
    + specialize (Hw1 _ _ Hin Hfut). lia.
    + specialize (Ha _ _ Hin Hfut). lia.
  - intros fut Hle. rewrite Hf. apply Hw2. lia.
Qed.

Lemma run_wf t c s : wf s → wf (state_of (run t c s)).
Proof. apply extends_wf, run_extends. Qed.

(** Between two drains the state only grows. *)
Lemma invocations_extend s s' : rtc (invocation isPrimaryThread) s s' → extends s s'.
Proof.
  induction 1 as [s|s s1 s2 (t & c & ->) _ IH].
  - apply extends_refl.
  - eapply extends_trans; [apply run_extends|exact IH].
Qed.

(** *** Running queued tasks *)

Lemma make_ready_lookup fut (o : Outcome V E) s fut' :
  futures (make_ready fut o s) !! fut' =
    if decide (fut = fut') then Some (default o (futures s !! fut))
    else futures s !! fut'.
Proof.
  unfold make_ready. destruct (futures s !! fut) as [o'|] eqn:Hfut; simpl.
  - case_decide; congruence.
  - case_decide as Heq.
    + subst. apply lookup_insert_eq.
    + by apply lookup_insert_ne.
Qed.

Lemma run_futures t c s : futures (state_of (run t c s)) = futures s.
Proof. apply run_extends. Qed.

(** On the primary thread every task runs to its end. *)
Lemma exec_task_primary p (task : Task) s :
  isPrimaryThread p = true → ∃ s', exec_task p task s = Some s'.
Proof.
  intros Hp. destruct task as [fn|fut fn]; simpl; unfold Dispatch.invoke_packaged;
    destruct (run_primary_finished p fn s Hp) as (o & s' & ->); eauto.
Qed.

Lemma exec_tasks_primary p (tasks : list Task) s :
  isPrimaryThread p = true → ∃ s', exec_tasks p tasks s = Some s'.
Proof.
  intros Hp. revert s. induction tasks as [|task rest IH]; intros s; simpl.
  - eauto.
  - destruct (exec_task_primary p task s Hp) as (s' & ->). apply IH.
Qed.

Lemma exec_tasks_app p (ts1 ts2 : list Task) s :
  exec_tasks p (ts1 ++ ts2) s =
    match exec_tasks p ts1 s with
    | Some s' => exec_tasks p ts2 s'
    | None => None
    end.
Proof.
  revert s. induction ts1 as [|task rest IH]; intros s; simpl; [done|].
  destruct (Dispatch.exec_task _ p task s); [apply IH|done].
Qed.

(** A task leaves alone the futures that are not its own ... *)
Lemma exec_task_other_future p (task : Task) s s' fut :
  exec_task p task s = Some s' → task_future task ≠ Some fut →
  futures s' !! fut = futures s !! fut.
Proof.
  destruct task as [fn|fut' fn]; simpl; unfold Dispatch.invoke_packaged;
    intros Hexec Hne; pose proof (run_futures p fn s) as Hf;
    destruct (Dispatch.run _ p fn s) as [o s1|? ? ?]; simplify_eq/=.
  - by rewrite Hf.
  - rewrite make_ready_lookup. case_decide; [congruence|by rewrite Hf].
Qed.

(** ... and a shared state that is ready stays as it is. *)
Lemma exec_task_ready_future p (task : Task) s s' fut o :
  exec_task p task s = Some s' → futures s !! fut = Some o →
  futures s' !! fut = Some o.
Proof.
  destruct task as [fn|fut' fn]; simpl; unfold Dispatch.invoke_packaged;
    intros Hexec Hready; pose proof (run_futures p fn s) as Hf;
    destruct (Dispatch.run _ p fn s) as [o1 s1|? ? ?]; simplify_eq/=.
  - by rewrite Hf.
  - rewrite make_ready_lookup, Hf. case_decide; [subst; by rewrite Hready|done].
Qed.

Lemma exec_tasks_other_future p (tasks : list Task) s s' fut :
  exec_tasks p tasks s = Some s' →
  (∀ task, task ∈ tasks → task_future task ≠ Some fut) →
  futures s' !! fut = futures s !! fut.
Proof.
  revert s. induction tasks as [|task rest IH]; intros s; simpl.
  - by intros [= ->].
  - destruct (Dispatch.exec_task _ p task s) as [s1|] eqn:Hexec; [|done].
    intros Hrest Hall. rewrite (IH s1 Hrest).
    + eapply exec_task_other_future; [done|]. apply Hall. left.
    + intros task' Hin. apply Hall. by right.
Qed.

Lemma exec_tasks_ready_future p (tasks : list Task) s s' fut o :
  exec_tasks p tasks s = Some s' → futures s !! fut = Some o →
  futures s' !! fut = Some o.
Proof.
  revert s. induction tasks as [|task rest IH]; intros s; simpl.
  - by intros [= ->].
  - destruct (Dispatch.exec_task _ p task s) as [s1|] eqn:Hexec; [|done].
    intros Hrest Hready. apply (IH s1 Hrest).
    by eapply exec_task_ready_future.
Qed.

(** The closure of [dispatchSync] fulfils its future with the outcome of the
    callable, whichever it is. *)
Lemma invoke_packaged_ready p fut fn s o s1 :
  run p fn s = Finished o s1 → futures s !! fut = None →
  invoke_packaged p fut fn s = Some (make_ready fut o s1)
  ∧ futures (make_ready fut o s1) !! fut = Some o.
Proof.
  intros Hrun Hnone. unfold Dispatch.invoke_packaged. rewrite Hrun.
  split; [done|].
  rewrite make_ready_lookup. rewrite decide_True by done.
  pose proof (run_futures p fn s) as Hf. rewrite Hrun in Hf. simpl in Hf.
  by rewrite Hf, Hnone.
Qed.

(** What a call from another thread leaves behind. *)
Lemma dispatchSync_other_thread t fn s :
  isPrimaryThread t = false → wf s →
  dispatchSync t fn s =
    Blocked (next_future s) Return
      (dispatchAsync (RunPackaged (next_future s) fn) (packaged_task s).2).
Proof.
  intros Ht [_ Hfresh]. unfold Dispatch.dispatchSync, dispatchSync_on.
  rewrite Ht. simpl. unfold future_get, get_future. simpl.
  by rewrite (Hfresh (next_future s)).
Qed.

Lemma wake_ready t fut (o : Outcome V E) s :
  futures s !! fut = Some o → wake t fut Return s = Finished o s.
Proof. intros Hready. unfold Dispatch.wake. rewrite Hready. by destruct o. Qed.

(** Inside a callable the call leaves the rest of the callable waiting on
    the future, and the woken thread goes on with it. *)
Lemma run_call_other_thread t fn k s :
  isPrimaryThread t = false → wf s →
  run t (CallDispatchSync fn k) s =
    Blocked (next_future s) k
      (dispatchAsync (RunPackaged (next_future s) fn) (packaged_task s).2).
Proof.
  intros Ht Hwf. simpl.
  pose proof (dispatchSync_other_thread t fn s Ht Hwf) as Hcall.
  unfold Dispatch.dispatchSync in Hcall. by rewrite Hcall.
Qed.

Lemma wake_returned t fut k v s :
  futures s !! fut = Some (Returned v) → wake t fut k s = run t (k v) s.
Proof. intros Hready. unfold Dispatch.wake. by rewrite Hready. Qed.

(** *** The invariant

    It holds when the application starts and is kept by every invocation
    (see [run_wf]) and by every drain; a drain on the primary thread always
    gets through the queue. *)
Lemma initial_wf (u : U) : wf (mkState [] ∅ 0 u : State).
Proof.
  split; simpl.
  - intros task fut Hin. by apply elem_of_nil in Hin.
  - intros fut _. apply lookup_empty.
Qed.

Lemma make_ready_wf fut (o : Outcome V E) s :
  fut < next_future s → wf s → wf (make_ready fut o s).
Proof.
  intros Hlt [Hqueue Hfresh]. unfold make_ready.
  destruct (futures s !! fut) eqn:Hfut; [done|]. split; simpl; [done|].
  intros fut' Hle. rewrite lookup_insert_ne by lia. by apply Hfresh.
Qed.

Lemma exec_tasks_wf p (tasks : list Task) s s' :
  wf s →
  (∀ (task : Task) fut, task ∈ tasks → task_future task = Some fut →
     fut < next_future s) →
  exec_tasks p tasks s = Some s' → wf s'.
Proof.
  revert s. induction tasks as [|task rest IH]; intros s Hwf Hall; simpl.
  - by intros [= <-].
  - destruct (Dispatch.exec_task _ p task s) as [s1|] eqn:Hexec; [|done].
    assert (wf s1 ∧ next_future s ≤ next_future s1) as [Hwf1 Hle].
    { pose proof (run_extends p) as Hext. pose proof (run_wf p) as Hrun.
      destruct task as [fn|fut fn]; simpl in Hexec;
        unfold Dispatch.invoke_packaged in Hexec;
        specialize (Hext fn s); specialize (Hrun fn s Hwf);
        destruct (Dispatch.run _ p fn s) as [o s0|? ? ?]; simplify_eq/=.
      - split; [done|apply Hext].
      - destruct Hext as (_ & Hle & _). split.
        + apply make_ready_wf; [|done].
          assert (fut < next_future s) by (eapply Hall; [left|done]). lia.
        + unfold make_ready. by destruct (futures s0 !! fut). }
    apply IH; [done|]. intros task' fut' Hin Hfut'.
    assert (fut' < next_future s) by (eapply Hall; [by right|done]). lia.
Qed.

Lemma drain_wf p s s' : wf s → drain p s = Some s' → wf s'.
Proof.
  intros [Hqueue Hfresh]. apply exec_tasks_wf; [|exact Hqueue].
  split; simpl; [|exact Hfresh]. intros task fut Hin. by apply elem_of_nil in Hin.
Qed.

Lemma drain_primary p s : isPrimaryThread p = true → ∃ s', drain p s = Some s'.
Proof. intros Hp. by apply exec_tasks_primary. Qed.

(** *** A call and the slot it waits on *)

(** The call creates a shared state of its own: the next one, which no
    queued closure refers to, and the invariant holds after it. *)
Lemma dispatchSync_other_thread_slot t fn s :
  isPrimaryThread t = false → wf s →
  next_future (state_of (dispatchSync t fn s)) = S (next_future s)
  ∧ futures (state_of (dispatchSync t fn s)) = futures s
  ∧ wf (state_of (dispatchSync t fn s)).
Proof.
  intros Ht Hwf. rewrite (dispatchSync_other_thread t fn s Ht Hwf). simpl.
  split; [done|]. split; [done|]. destruct Hwf as [Hqueue Hfresh]. split; simpl.
  - intros task fut [Hin|Hin]%elem_of_app Hfut.
    + specialize (Hqueue _ _ Hin Hfut). lia.
    + apply list_elem_of_singleton in Hin. subst. simplify_eq/=. lia.
  - intros fut Hle. apply Hfresh. lia.
Qed.

Lemma make_ready_queue fut (o : Outcome V E) s :
  queue (make_ready fut o s) = queue s
  ∧ next_future (make_ready fut o s) = next_future s.
Proof. unfold make_ready. by destruct (futures s !! fut). Qed.

(** Right after the call its closure waits, given that the closures taken
    off the queue earlier refer to shared states created before. *)
Lemma waiting_after_call t fn s (pool : list Task) :
  isPrimaryThread t = false → wf s →
  (∀ (task : Task) (fut : Future),
     task ∈ pool → task_future task = Some fut → fut < next_future s) →
  waiting (next_future s) (RunPackaged (next_future s) fn)
    (pool, state_of (dispatchSync t fn s)).
Proof.
  intros Ht Hwf Hpool.
  rewrite (dispatchSync_other_thread t fn s Ht Hwf). destruct Hwf as [Hqueue Hfresh].
  split_and!; simpl.
  - lia.
  - by apply Hfresh.
  - intros task Hin Hfut. rewrite app_assoc in Hin.
    apply elem_of_app in Hin as [Hin|Hin].
    + exfalso. apply elem_of_app in Hin as [Hin|Hin].
      * specialize (Hpool _ _ Hin Hfut). lia.
      * specialize (Hqueue _ _ Hin Hfut). lia.
    + by apply list_elem_of_singleton in Hin.
Qed.

Lemma waiting_extends fut (own : Task) (pool : list Task) s s' :
  extends s s' → waiting fut own (pool, s) → waiting fut own (pool, s').
Proof.
  intros (Hf & Hn & added & Hq & Ha) (Hlt & Hnone & Hown). simpl in *.
  split_and!; simpl.
  - lia.
  - by rewrite Hf.
  - intros task Hin Hfut. rewrite Hq, app_assoc in Hin.
    apply elem_of_app in Hin as [Hin|Hin]; [by apply Hown|].
    specialize (Ha _ _ Hin Hfut). lia.
Qed.

(** Nothing that happens meanwhile makes the future ready or puts a second
    task for it into the queue. *)
Lemma meanwhile_waiting fut (own : Task) ps ps' :
  meanwhile isPrimaryThread own ps ps' → waiting fut own ps → waiting fut own ps'.
Proof.
  intros Hstep Hwait.
  destruct Hstep as [pool s t c|pool s taken rest Hq|pool s p fut' fn' s' Hin Hne Hexec].
  - eapply waiting_extends; [apply run_extends|done].
  - destruct Hwait as (Hlt & Hnone & Hown). simpl in *.
    split_and!; simpl; [done..|]. intros task Htask. apply Hown.
    by rewrite Hq, app_assoc.
  - assert (fut' ≠ fut) as Hfut.
    { intros ->. apply Hne. destruct Hwait as (_ & _ & Hown). apply Hown; [|done].
      simpl. apply elem_of_app. by left. }
    unfold Dispatch.invoke_packaged in Hexec.
    pose proof (run_extends p fn' s) as Hext.
    destruct (Dispatch.run _ p fn' s) as [o s0|? ? ?]; simplify_eq/=.
    apply (waiting_extends fut own pool s s0 Hext) in Hwait.
    destruct Hwait as (Hlt & Hnone & Hown). simpl in *.
    destruct (make_ready_queue fut' o s0) as [Hq Hn].
    split_and!; simpl.
    + by rewrite Hn.
    + rewrite make_ready_lookup. by rewrite decide_False.
    + by rewrite Hq.
Qed.

Lemma meanwhile_rtc_waiting fut (own : Task) ps ps' :
  rtc (meanwhile isPrimaryThread own) ps ps' → waiting fut own ps → waiting fut own ps'.
Proof.
  induction 1 as [ps|ps ps1 ps2 Hstep _ IH]; [done|].
  intros Hwait. apply IH. by eapply meanwhile_waiting.
Qed.

(** Once a future is ready, nothing changes what it carries. *)
Lemma afterwards_ready fut (o : Outcome V E) s s' :
  rtc (afterwards isPrimaryThread) s s' →
  futures s !! fut = Some o → futures s' !! fut = Some o.
Proof.
  induction 1 as [s|s s1 s2 Hstep _ IH]; [done|].
  intros Hready. apply IH.
  destruct Hstep as [(t & c & ->)|(p & fut' & fn' & Hexec)].
  - by rewrite run_futures.
  - by apply (exec_task_ready_future p (RunPackaged fut' fn') s s1 fut o).
Qed.

(** C1: called on the primary thread, [dispatchSync( fn )] is the inline
    invocation [fn()]: it yields what [fn] yields and leaves the state [fn]
    leaves.  The call ends and is never suspended; it creates no shared
    state, and unless [fn] itself posts tasks the queue is as before.  So a
    task that calls [dispatchSync], invoked on the primary thread, runs to
    its end. *)
Theorem dispatchSync_on_primary_thread t fn s :
  isPrimaryThread t = true →
  dispatchSync t fn s = run t fn s
  ∧ (∃ o s', dispatchSync t fn s = Finished o s'
       ∧ next_future s' = next_future s
       ∧ (posts_nothing fn → queue s' = queue s))
  ∧ (∀ fn' k, ∃ o s', run t (CallDispatchSync fn' k) s = Finished o s').
Proof.
  intros Hp. split_and!.
  - unfold Dispatch.dispatchSync, dispatchSync_on. by rewrite Hp.
  - unfold Dispatch.dispatchSync, dispatchSync_on. rewrite Hp.
    pose proof (run_primary_next_future t fn s Hp) as Hnext.
    pose proof (run_primary_queue t fn s Hp) as Hqueue.
    destruct (run_primary_finished t fn s Hp) as (o & s' & Hrun).
    rewrite Hrun in *. eauto.
  - intros fn' k. by apply run_primary_finished.
Qed.

(** C2: called on a thread [t] that is not the primary thread,
    [dispatchSync( fn )] creates a shared state, posts the closure that runs
    [fn] into it behind the tasks already queued, and suspends [t] on the
    future.  The shared state is a new one of the call's own: it is the next
    one to be created, it is not ready, no task queued before refers to it,
    and the invariant holds after the call.  Whatever the threads invoke
    until the next drain, [t] stays
    suspended.  That drain, on the primary thread [p], first runs the tasks
    queued before the call; the future is still not ready when it comes to
    [fn]; it invokes [fn] on [p], and once it is through the future carries
    the outcome of that invocation, which the woken call returns. *)
Theorem dispatchSync_on_other_thread t p fn s :
  isPrimaryThread t = false → isPrimaryThread p = true → wf s →
  let fut := next_future s in
  ∃ s1, dispatchSync t fn s = Blocked fut Return s1
    ∧ queue s1 = queue s ++ [RunPackaged fut fn]
    ∧ (next_future s1 = S fut
       ∧ futures s1 !! fut = None
       ∧ (∀ task : Task, task ∈ queue s → task_future task ≠ Some fut)
       ∧ wf s1)
    ∧ ∀ s1', rtc (invocation isPrimaryThread) s1 s1' →
        wake t fut Return s1' = Blocked fut Return s1'
        ∧ ∃ s_mid o s_mid' s2,
            exec_tasks p (queue s) (set_queue [] s1') = Some s_mid
            ∧ futures s_mid !! fut = None
            ∧ run p fn s_mid = Finished o s_mid'
            ∧ drain p s1' = Some s2
            ∧ wake t fut Return s2 = Finished o s2.
Proof.
  intros Ht Hp Hwf fut. subst fut.
  pose proof (dispatchSync_other_thread_slot t fn s Ht Hwf) as Hslot.
  rewrite (dispatchSync_other_thread t fn s Ht Hwf) in Hslot.
  eexists. split; [by apply dispatchSync_other_thread|].
  split; [done|]. split.
  { destruct Hslot as (Hn & Hf & Hwf1). split; [exact Hn|].
    split; [simpl; by apply Hwf|]. split; [|exact Hwf1].
    intros task Hin Hfut. destruct Hwf as [Hqueue _].
    specialize (Hqueue _ _ Hin Hfut). lia. }
  clear Hslot. intros s1' Hact.
  apply invocations_extend in Hact as (Hf & Hn & more & Hq & Hmore).
  simpl in Hf, Hn, Hq, Hmore. destruct Hwf as [Hold Hfresh].
  assert (futures s1' !! next_future s = None) as Hnone.
  { rewrite Hf. by apply Hfresh. }
  split.
  { unfold Dispatch.wake. by rewrite Hnone. }
  destruct (exec_tasks_primary p (queue s) (set_queue [] s1') Hp) as (s_mid & Hmid).
  assert (futures s_mid !! next_future s = None) as Hmid_none.
  { rewrite (exec_tasks_other_future _ _ _ _ (next_future s) Hmid); [done|].
    intros task Hin Hfut. specialize (Hold _ _ Hin Hfut). lia. }
  destruct (run_primary_finished p fn s_mid Hp) as (o & s_mid' & Hrun).
  destruct (invoke_packaged_ready p (next_future s) fn s_mid o s_mid' Hrun Hmid_none) as [Hexec Hready].
  destruct (exec_tasks_primary p more (make_ready (next_future s) o s_mid') Hp) as (s2 & Hrest).
  exists s_mid, o, s_mid', s2. split_and!; [done..| |].
  - unfold Dispatch.drain. rewrite Hq, <- app_assoc, exec_tasks_app, Hmid.
    change (exec_tasks p ([RunPackaged (next_future s) fn] ++ more) s_mid)
      with (match invoke_packaged p (next_future s) fn s_mid with
            | Some s' => exec_tasks p more s' | None => None end).
    by rewrite Hexec.
  - apply wake_ready. by eapply exec_tasks_ready_future.
Qed.

(** C3: a callable that raises has its exception raised again by
    [dispatchSync].  On the primary thread the exception of the inline
    invocation is the outcome of the call.  On another thread the call
    creates a shared state of its own and is suspended on its future, with
    its closure last in the queue.  Whatever happens before that closure is
    run (callables invoked on any thread, among them further calls of
    [dispatchSync]; tasks taken off the queue; closures of other calls
    invoked), the future stays unready and the caller suspended.  When the
    closure is then run and [fn] raises [e], the closure does not let [e]
    escape but puts it into the shared state, and from then on, whatever
    else is invoked, the woken caller leaves with [e], whatever it had left
    to do with a value. *)
Theorem dispatchSync_rethrows t fn s e :
  wf s →
  (isPrimaryThread t = true →
     ∀ s', run t fn s = Finished (Thrown e) s' →
       dispatchSync t fn s = Finished (Thrown e) s')
  ∧ (isPrimaryThread t = false →
     ∃ s1, dispatchSync t fn s = Blocked (next_future s) Return s1
       ∧ last (queue s1) = Some (RunPackaged (next_future s) fn)
       ∧ next_future s1 = S (next_future s)
       ∧ wf s1
       ∧ ∀ (pool0 pool : list Task) sx,
           (∀ (task : Task) (fut : Future),
              task ∈ pool0 → task_future task = Some fut → fut < next_future s) →
           rtc (meanwhile isPrimaryThread (RunPackaged (next_future s) fn))
             (pool0, s1) (pool, sx) →
           futures sx !! next_future s = None
           ∧ (∀ k, wake t (next_future s) k sx = Blocked (next_future s) k sx)
           ∧ ∀ p sx', run p fn sx = Finished (Thrown e) sx' →
               ∃ sy, invoke_packaged p (next_future s) fn sx = Some sy
                 ∧ futures sy !! next_future s = Some (Thrown e)
                 ∧ ∀ sz, rtc (afterwards isPrimaryThread) sy sz →
                     ∀ k, wake t (next_future s) k sz = Finished (Thrown e) sz).
Proof.
  intros Hwf. split.
  - intros Hp s' Hrun. unfold Dispatch.dispatchSync, dispatchSync_on.
    by rewrite Hp.
  - intros Ht.
    pose proof (dispatchSync_other_thread_slot t fn s Ht Hwf) as (Hn & _ & Hwf1).
    pose proof (λ pool, waiting_after_call t fn s pool Ht Hwf) as Hwait.
    rewrite (dispatchSync_other_thread t fn s Ht Hwf) in Hn, Hwf1, Hwait.
    eexists. split; [by apply dispatchSync_other_thread|].
    split; [simpl; by rewrite last_snoc|].
    split; [exact Hn|]. split; [exact Hwf1|].
    intros pool0 pool sx Hpool Hmean.
    apply (meanwhile_rtc_waiting (next_future s)) in Hmean; [|by apply Hwait].
    destruct Hmean as (_ & Hnone & _). simpl in Hnone.
    split; [exact Hnone|]. split.
    { intros k. unfold Dispatch.wake. by rewrite Hnone. }
    intros p sx' Hrun.
    destruct (invoke_packaged_ready p _ fn sx _ sx' Hrun Hnone) as [Hexec Hready].
    eexists. split; [exact Hexec|]. split; [exact Hready|].
    intros sz Hafter k.
    apply (afterwards_ready _ _ _ _ Hafter) in Hready.
    unfold Dispatch.wake. by rewrite Hready.
Qed.

End DispatchFacts.

(** ** The frame clock *)

Section FpsFacts.
Import AppBase.
Context {WindowRef Path : Type}.
Implicit Types (a : AppBase.t WindowRef Path) (now : Qc).

(** A frame update that comes before the sample is due only counts the
    frame. *)
Lemma tick_not_due now a :
  (now - mFpsLastSampleTime a < mFpsSampleInterval a)%Qc →
  tick now a = countFrame now a.
Proof.
  intros Hlt. unfold tick, sampleFps. simpl.
  rewrite decide_False; [done|]. by apply Qclt_not_le.
Qed.

Lemma ticks_not_due (times : list Qc) a :
  Forall (fun now => (now - mFpsLastSampleTime a < mFpsSampleInterval a)%Qc) times →
  getAverageFps (ticks times a) = getAverageFps a
  ∧ mFpsLastSampleTime (ticks times a) = mFpsLastSampleTime a
  ∧ mFpsSampleInterval (ticks times a) = mFpsSampleInterval a.
Proof.
  unfold ticks. revert a. induction times as [|now rest IH]; intros a Hall; simpl.
  - done.
  - apply Forall_cons in Hall as [Hnow Hrest].
    rewrite (tick_not_due now a Hnow).
    destruct (IH (countFrame now a)) as (-> & -> & ->); done.
Qed.

(** C7: a frame update leaves what [getAverageFps] returns as it was when
    less than the sample interval has passed since the last sample, and so
    does any run of such updates; whenever an update changes it, the time
    since the last sample meets or exceeds the interval.  The accessors of
    the header read and set the interval without touching the average. *)
Theorem average_fps_kept_between_samples now (times : list Qc) a :
  ((now - mFpsLastSampleTime a < mFpsSampleInterval a)%Qc →
     getAverageFps (tick now a) = getAverageFps a)
  ∧ (Forall (fun now => (now - mFpsLastSampleTime a < mFpsSampleInterval a)%Qc) times →
     getAverageFps (ticks times a) = getAverageFps a)
  ∧ (getAverageFps (tick now a) ≠ getAverageFps a →
     (mFpsSampleInterval a ≤ now - mFpsLastSampleTime a)%Qc)
  ∧ (∀ interval, getAverageFps (setFpsSampleInterval interval a) = getAverageFps a
       ∧ getFpsSampleInterval (setFpsSampleInterval interval a) = interval).
Proof.
  split_and!.
  - intros Hlt. by rewrite tick_not_due.
  - intros Hall. by apply ticks_not_due.
  - intros Hchanged. apply Qcnot_lt_le. intros Hlt.
    apply Hchanged. by rewrite tick_not_due.
  - done.
Qed.

End FpsFacts.

(** ** The active application and the free functions *)

Section AccessFacts.
Import app.
Context {WindowRef Path Console DataSourceRef : Type}.
Context {Float Vec2 Area Rectf Effect Timeline Surface : Type}.
Context {RendererRef Renderer2d CGContextRef FullScreenOptions : Type}.
Variable O :
  AppBase.Outside WindowRef Path Float Vec2 Area Rectf Effect Timeline Surface
    RendererRef Renderer2d CGContextRef FullScreenOptions.

Local Abbreviation Process :=
  (app.Process WindowRef Path Console DataSourceRef Effect).
Local Abbreviation Platform :=
  (app.Platform WindowRef Path Console DataSourceRef Effect).
Local Abbreviation forwards_to f member :=
  (app.forwards_to (f : Process → app.Access _) member).
Local Abbreviation forwards_to_platform f member :=
  (app.forwards_to_platform (f : Process → app.Access _) member).

(** What forwarding says in the two cases of the instance pointer. *)
Lemma forwards_to_null {A} (f : Process → app.Access A) member p :
  forwards_to f member → sInstance p = None → f p = NullDereference.
Proof. intros Hf Hnull. by rewrite (Hf p), Hnull. Qed.

Lemma forwards_to_live {A} (f : Process → app.Access A) member p a :
  forwards_to f member → sInstance p = Some a → f p = Defined (member a).
Proof. intros Hf Hlive. by rewrite (Hf p), Hlive. Qed.

(** Every case of the two pointers. *)
Ltac by_pointers :=
  intros; unfold app.forwards_to, app.forwards_to_platform; intros;
  repeat match goal with
         | p : app.Process _ _ _ _ _ |- _ => destruct p as [[?|] [?|]]
         end;
  reflexivity.

(** C10: [AppBase::get()] hands out [sInstance] unchecked, and every free
    function that goes through it dereferences it unconditionally: with no
    live instance the call dereferences a null pointer, and with one it is
    the member function of that instance.  These are all the free functions
    of the header written [AppBase::get()->...] or, for [toPixels] and
    [toPoints], [getWindow()->...] with the free [getWindow]; on Cocoa
    [createWindowCgContext] in addition dereferences the outcome of a cast.
    The free functions [loadResource], [loadAsset], [getAssetPath],
    [addAssetDirectory] and [console] are not among them: they go through
    [Platform::get()] and dereference that. *)
Theorem free_functions_dereference_instance :
  (∀ p : Process, get p = sInstance p)
  ∧ (forwards_to getWindow AppBase.getWindow
     ∧ forwards_to getNumWindows AppBase.getNumWindows
     ∧ (∀ index, forwards_to (getWindowIndex index)
                   (fun a => AppBase.getWindowIndex a index))
     ∧ forwards_to (getWindowWidth O) (AppBase.getWindowWidth O)
     ∧ (∀ pos, forwards_to (setWindowPos O pos) (AppBase.setWindowPos O pos))
     ∧ (∀ x y, forwards_to (setWindowPos_xy O x y) (AppBase.setWindowPos_xy O x y))
     ∧ forwards_to (getWindowHeight O) (AppBase.getWindowHeight O)
     ∧ (∀ w h, forwards_to (setWindowSize_xy O w h) (AppBase.setWindowSize_xy O w h))
     ∧ forwards_to (getWindowCenter O) (AppBase.getWindowCenter O)
     ∧ forwards_to (getWindowSize O) (AppBase.getWindowSize O)
     ∧ forwards_to (getWindowPos O) (AppBase.getWindowPos O)
     ∧ forwards_to (getWindowAspectRatio O) (AppBase.getWindowAspectRatio O)
     ∧ forwards_to (getWindowBounds O) (AppBase.getWindowBounds O)
     ∧ forwards_to (getWindowContentScale O) (AppBase.getWindowContentScale O)
     ∧ forwards_to getFrameRate AppBase.getFrameRate
     ∧ (∀ rate, forwards_to (setFrameRate O rate) (AppBase.setFrameRate O rate))
     ∧ forwards_to (isFullScreen O) (AppBase.isFullScreen O)
     ∧ (∀ fullScreen,
          forwards_to (setFullScreen O fullScreen)
            (AppBase.setFullScreen O fullScreen (AppBase.FullScreenOptions_default O))))
  ∧ ((∀ s, forwards_to (toPixels_float O s)
             (fun a => AppBase.Window_toPixels_float O s (AppBase.getWindow a)))
     ∧ (∀ s, forwards_to (toPixels_vec2 O s)
               (fun a => AppBase.Window_toPixels_vec2 O s (AppBase.getWindow a)))
     ∧ (∀ s, forwards_to (toPixels_ivec2 O s)
               (fun a => AppBase.Window_toPixels_ivec2 O s (AppBase.getWindow a)))
     ∧ (∀ s, forwards_to (toPixels_Area O s)
               (fun a => AppBase.Window_toPixels_Area O s (AppBase.getWindow a)))
     ∧ (∀ s, forwards_to (toPixels_Rectf O s)
               (fun a => AppBase.Window_toPixels_Rectf O s (AppBase.getWindow a)))
     ∧ (∀ s, forwards_to (toPoints_float O s)
               (fun a => AppBase.Window_toPoints_float O s (AppBase.getWindow a)))
     ∧ (∀ s, forwards_to (toPoints_vec2 O s)
               (fun a => AppBase.Window_toPoints_vec2 O s (AppBase.getWindow a)))
     ∧ (∀ s, forwards_to (toPoints_ivec2 O s)
               (fun a => AppBase.Window_toPoints_ivec2 O s (AppBase.getWindow a)))
     ∧ (∀ s, forwards_to (toPoints_Area O s)
               (fun a => AppBase.Window_toPoints_Area O s (AppBase.getWindow a)))
     ∧ (∀ s, forwards_to (toPoints_Rectf O s)
               (fun a => AppBase.Window_toPoints_Rectf O s (AppBase.getWindow a))))
  ∧ (forwards_to getElapsedSeconds AppBase.getElapsedSeconds
     ∧ forwards_to getElapsedFrames AppBase.getElapsedFrames
     ∧ forwards_to getAppPath AppBase.getAppPath
     ∧ (∀ path exts, forwards_to (getOpenFilePath O path exts)
                       (AppBase.getOpenFilePath O path exts))
     ∧ (∀ path exts, forwards_to (getSaveFilePath O path exts)
                       (AppBase.getSaveFilePath O path exts))
     ∧ forwards_to (timeline O) (AppBase.timeline O)
     ∧ forwards_to (copyWindowSurface O) (AppBase.copyWindowSurface O)
     ∧ (∀ area, forwards_to (copyWindowSurface_area O area)
                  (AppBase.copyWindowSurface_area O area))
     ∧ forwards_to (restoreWindowContext O) (AppBase.restoreWindowContext O)
     ∧ (∀ p : Process,
          createWindowCgContext O p =
            match sInstance p with
            | Some a =>
                match AppBase.dynamic_pointer_cast_Renderer2d O (AppBase.getRenderer O a) with
                | Some renderer => Defined (AppBase.Renderer2d_getCgContext O renderer)
                | None => NullDereference
                end
            | None => NullDereference
            end))
  ∧ ((∀ id type, forwards_to_platform (loadResource_msw id type)
                   (fun pl : Platform => Platform_loadResource_msw pl id type))
     ∧ (∀ path, forwards_to_platform (loadResource path)
                  (fun pl : Platform => Platform_loadResource pl path))
     ∧ (∀ path, forwards_to_platform (loadAsset path)
                  (fun pl : Platform => Platform_loadAsset pl path))
     ∧ (∀ path, forwards_to_platform (getAssetPath path)
                  (fun pl : Platform => Platform_getAssetPath pl path))
     ∧ (∀ path, forwards_to_platform (addAssetDirectory path)
                  (fun pl : Platform => Platform_addAssetDirectory pl path))
     ∧ forwards_to_platform console (fun pl : Platform => Platform_console pl)).
Proof.
  split; [done|]. split_and!; by_pointers.
Qed.

End AccessFacts.

(** ** The properties at work on the examples *)

Section Examples.
Import Combiner Dispatch.

(** The handlers [{true, false, true}] yield [true] under OR and [false]
    under AND, and all three have run; the masks [{0b110, 0b100}] yield
    [0b100]. *)
Example example_handlers_combined :
  BooleanOrEventCombiner example_handlers 0 = (true, 3)
  ∧ BooleanAndEventCombiner example_handlers 0 = (false, 3)
  ∧ BitwiseAndEventCombiner example_masks 0 = (4%Z, 2).
Proof. repeat split. Qed.

Lemma combiners_fold_all_results_witness :
  (example_handlers ≠ [] ∧ example_masks ≠ [])
  ∧ (BooleanOrEventCombiner example_handlers 0).1
      = existsb id (slot_results example_handlers 0)
  ∧ (BooleanAndEventCombiner example_handlers 0).1
      = forallb id (slot_results example_handlers 0)
  ∧ ∀ i, Z.testbit (BitwiseAndEventCombiner example_masks 0).1 i
         = forallb (fun r => Z.testbit r i) (slot_results example_masks 0).
Proof.
  split; [split; discriminate|].
  apply (combiners_fold_all_results example_handlers example_masks 0);
    discriminate.
Defined.

Lemma example_state_wf : wf example_state.
Proof.
  split.
  - intros task fut Hin Hfut. apply list_elem_of_singleton in Hin. by subst.
  - intros fut _. apply lookup_empty.
Qed.

(** On the primary thread the nested calls run inline, one inside the
    other, and nothing is queued. *)
Example example_reentrant_inline :
  dispatchSync example_isPrimaryThread 0 example_reentrant example_state
    = Finished (Returned 3) (mkState (queue example_state) ∅ 0 2).
Proof. reflexivity. Qed.

Lemma dispatchSync_on_primary_thread_witness :
  example_isPrimaryThread 0 = true
  ∧ dispatchSync example_isPrimaryThread 0 example_reentrant example_state
      = run example_isPrimaryThread 0 example_reentrant example_state
  ∧ (∃ o s',
       dispatchSync example_isPrimaryThread 0 example_reentrant example_state
         = Finished o s'
       ∧ next_future s' = next_future example_state
       ∧ (posts_nothing example_reentrant → queue s' = queue example_state))
  ∧ (∀ fn' k, ∃ o s',
       run example_isPrimaryThread 0 (CallDispatchSync fn' k) example_state
         = Finished o s').
Proof.
  split; [reflexivity|].
  apply (dispatchSync_on_primary_thread example_isPrimaryThread 0
           example_reentrant example_state).
  reflexivity.
Defined.

(** From thread [1] the call is suspended behind the queued task; the drain
    on thread [0] runs that task, then the callable, and the call returns
    the [22] computed there. *)
Example example_fn_round_trip :
  let s1 := mkState (queue example_state ++ [RunPackaged 0 example_fn]) ∅ 1 1 in
  let s2 := mkState [] (<[0 := Returned 22]> ∅) 1 12 in
  dispatchSync example_isPrimaryThread 1 example_fn example_state
    = Blocked 0 Return s1
  ∧ drain example_isPrimaryThread 0 s1 = Some s2
  ∧ wake example_isPrimaryThread 1 0 Return s2 = Finished (Returned 22) s2.
Proof. repeat split. Qed.

Lemma dispatchSync_on_other_thread_witness :
  (example_isPrimaryThread 1 = false ∧ example_isPrimaryThread 0 = true
   ∧ wf example_state)
  ∧ ∃ s1,
      dispatchSync example_isPrimaryThread 1 example_fn example_state
        = Blocked 0 Return s1
      ∧ queue s1 = queue example_state ++ [RunPackaged 0 example_fn]
      ∧ (next_future s1 = 1
         ∧ futures s1 !! 0 = None
         ∧ (∀ task : Task nat nat nat,
              task ∈ queue example_state → task_future task ≠ Some 0)
         ∧ wf s1)
      ∧ ∀ s1', rtc (invocation example_isPrimaryThread) s1 s1' →
          wake example_isPrimaryThread 1 0 Return s1' = Blocked 0 Return s1'
          ∧ ∃ s_mid o s_mid' s2,
              exec_tasks example_isPrimaryThread 0 (queue example_state)
                (set_queue [] s1') = Some s_mid
              ∧ futures s_mid !! 0 = None
              ∧ run example_isPrimaryThread 0 example_fn s_mid = Finished o s_mid'
              ∧ drain example_isPrimaryThread 0 s1' = Some s2
              ∧ wake example_isPrimaryThread 1 0 Return s2 = Finished o s2.
Proof.
  split; [split_and!; [reflexivity..|exact example_state_wf]|].
  apply (dispatchSync_on_other_thread example_isPrimaryThread 1 0
           example_fn example_state);
    [reflexivity..|exact example_state_wf].
Defined.

(** The exception of [example_failing] reaches the caller on thread [1]. *)
Example example_failing_round_trip :
  let s1 := mkState (queue example_state ++ [RunPackaged 0 example_failing]) ∅ 1 1 in
  let s2 := mkState [] (<[0 := Thrown 7]> ∅) 1 12 in
  dispatchSync example_isPrimaryThread 0 example_failing example_state
    = Finished (Thrown 7) (mkState (queue example_state) ∅ 0 2)
  ∧ dispatchSync example_isPrimaryThread 1 example_failing example_state
    = Blocked 0 Return s1
  ∧ drain example_isPrimaryThread 0 s1 = Some s2
  ∧ wake example_isPrimaryThread 1 0 Return s2 = Finished (Thrown 7) s2.
Proof. repeat split. Qed.

(** Thread [1] waits for [example_failing].  Meanwhile thread [2] calls
    [dispatchSync( example_fn )], the queue is taken, and the closure of
    thread [2] is invoked ahead of the other: thread [1] still waits, and
    when its own closure is then invoked it is given the [7]. *)
Example example_failing_overtaken :
  let own := RunPackaged 0 example_failing in
  let s1 := mkState (queue example_state ++ [own]) ∅ 1 1 in
  ∃ pool sx sy,
    rtc (meanwhile example_isPrimaryThread own) ([], s1) (pool, sx)
    ∧ futures sx !! 1 = Some (Returned 2)
    ∧ wake example_isPrimaryThread 1 0 Return sx = Blocked 0 Return sx
    ∧ invoke_packaged example_isPrimaryThread 0 0 example_failing sx = Some sy
    ∧ wake example_isPrimaryThread 1 0 Return sy = Finished (Thrown 7) sy
    ∧ wake example_isPrimaryThread 2 1 Return sy = Finished (Returned 2) sy.
Proof.
  intros own s1.
  set (s2 := mkState (queue s1 ++ [RunPackaged 1 example_fn]) ∅ 2 1
             : State nat nat nat).
  set (s3 := set_queue [] s2).
  set (sx := mkState [] (<[1 := Returned 2]> ∅) 2 2 : State nat nat nat).
  exists (queue s2), sx, (mkState [] (<[0 := Thrown 7]> (<[1 := Returned 2]> ∅)) 2 3).
  split; [|repeat split].
  eapply rtc_l.
  { exact (meanwhile_invoke example_isPrimaryThread own [] s1 2
             (CallDispatchSync example_fn Return)). }
  eapply rtc_l.
  { exact (meanwhile_take example_isPrimaryThread own [] s2 (queue s2) []
             (eq_sym (app_nil_r _))). }
  eapply rtc_l; [|apply rtc_refl].
  apply (meanwhile_closure example_isPrimaryThread own (queue s2) s3 0 1
           example_fn sx).
  - apply list_elem_of_further, list_elem_of_further, list_elem_of_here.
  - intros [=].
  - reflexivity.
Qed.

Lemma dispatchSync_rethrows_witness :
  wf example_state
  ∧ (example_isPrimaryThread 1 = true →
       ∀ s', run example_isPrimaryThread 1 example_failing example_state
               = Finished (Thrown 7) s' →
         dispatchSync example_isPrimaryThread 1 example_failing example_state
           = Finished (Thrown 7) s')
  ∧ (example_isPrimaryThread 1 = false →
       ∃ s1,
         dispatchSync example_isPrimaryThread 1 example_failing example_state
           = Blocked (next_future example_state) Return s1
         ∧ last (queue s1)
           = Some (RunPackaged (next_future example_state) example_failing)
         ∧ next_future s1 = S (next_future example_state)
         ∧ wf s1
         ∧ ∀ (pool0 pool : list (Task nat nat nat)) sx,
             (∀ (task : Task nat nat nat) (fut : Future),
                task ∈ pool0 → task_future task = Some fut →
                fut < next_future example_state) →
             rtc (meanwhile example_isPrimaryThread
                    (RunPackaged (next_future example_state) example_failing))
               (pool0, s1) (pool, sx) →
             futures sx !! next_future example_state = None
             ∧ (∀ k, wake example_isPrimaryThread 1 (next_future example_state) k sx
                     = Blocked (next_future example_state) k sx)
             ∧ ∀ p sx',
                 run example_isPrimaryThread p example_failing sx
                   = Finished (Thrown 7) sx' →
                 ∃ sy, invoke_packaged example_isPrimaryThread p
                         (next_future example_state) example_failing sx = Some sy
                   ∧ futures sy !! next_future example_state = Some (Thrown 7)
                   ∧ ∀ sz, rtc (afterwards example_isPrimaryThread) sy sz →
                       ∀ k, wake example_isPrimaryThread 1
                              (next_future example_state) k sz
                            = Finished (Thrown 7) sz).
Proof.
  split; [exact example_state_wf|].
  apply (dispatchSync_rethrows example_isPrimaryThread 1 example_failing
           example_state 7).
  exact example_state_wf.
Defined.

(** With samples one second apart and the last one taken at second [1], a
    frame update at second [3/2] keeps the average of [60]; one at second
    [3] finds [61] frames counted over [2] seconds. *)
Example example_app_sampling :
  AppBase.getAverageFps (AppBase.tick (Qc_of_Z 3 / Qc_of_Z 2) app.example_app)
    = Qc_of_Z 60
  ∧ AppBase.getAverageFps (AppBase.tick (Qc_of_Z 3) app.example_app)
    = (Qc_of_Z 61 / Qc_of_Z 2)%Qc.
Proof. split; apply Qc_is_canon; reflexivity. Qed.

(** With no live application and a platform that answers on its own,
    [console] and [loadAsset] are defined, while [getWindow] dereferences
    the null pointer. *)
Lemma platform_functions_without_instance :
  app.get app.example_no_instance = None
  ∧ app.getWindow app.example_no_instance = app.NullDereference
  ∧ app.console app.example_no_instance = app.Defined 1
  ∧ app.loadAsset 5 app.example_no_instance = app.Defined 105.
Proof. repeat split. Qed.

(** With a live application the free functions are its member functions. *)
Example example_running_accessors :
  app.getElapsedFrames app.example_running = app.Defined 120%Z
  ∧ app.getNumWindows app.example_running = app.Defined 1%N
  ∧ app.console app.example_running = app.Defined 1.
Proof. repeat split. Qed.

End Examples.

(** ** More on the combiners: splitting a range, order, bounds *)

Section CombinerLaws.
Import Combiner.
Context {W : Type}.
Implicit Types (w : W).

Lemma slot_results_app {R} (r1 r2 : Range W R) w :
  slot_results (r1 ++ r2) w =
    slot_results r1 w ++ slot_results r2 (invoke_all r1 w).
Proof.
  revert w. induction r1 as [|f rest IH]; intros w; simpl; [done|].
  destruct (f w) as [r w']. simpl. by rewrite IH.
Qed.

Lemma invoke_all_app {R} (r1 r2 : Range W R) w :
  invoke_all (r1 ++ r2) w = invoke_all r2 (invoke_all r1 w).
Proof.
  revert w. induction r1 as [|f rest IH]; intros w; simpl; [done|].
  destruct (f w) as [r w']. apply IH.
Qed.

Lemma fold_land_cons (a b : Z) (rs : list Z) :
  foldl Z.land a (b :: rs) = Z.land a (foldl Z.land b rs).
Proof.
  simpl. revert a b. induction rs as [|r rs IH]; intros a b; simpl; [done|].
  by rewrite !IH, !Z.land_assoc.
Qed.

Lemma forallb_Permutation {A} (f : A → bool) (l1 l2 : list A) :
  l1 ≡ₚ l2 → forallb f l1 = forallb f l2.
Proof.
  induction 1 as [|x l1 l2 _ IH|x y l|l1 l2 l3 _ IH1 _ IH2]; simpl.
  - done.
  - by rewrite IH.
  - by destruct (f x), (f y).
  - by rewrite IH1.
Qed.

Lemma existsb_Permutation {A} (f : A → bool) (l1 l2 : list A) :
  l1 ≡ₚ l2 → existsb f l1 = existsb f l2.
Proof.
  induction 1 as [|x l1 l2 _ IH|x y l|l1 l2 l3 _ IH1 _ IH2]; simpl.
  - done.
  - by rewrite IH.
  - by destruct (f x), (f y).
  - by rewrite IH1.
Qed.

Lemma forallb_elem_of {A} (f : A → bool) (l : list A) x :
  forallb f l = true → x ∈ l → f x = true.
Proof.
  intros Hall Hin. rewrite forallb_forall in Hall.
  apply Hall. by apply list_elem_of_In.
Qed.

Lemma land_upper_bound (a r : Z) : (0 ≤ r → 0 ≤ Z.land a r ≤ r)%Z.
Proof.
  intros Hr. split.
  - apply Z.land_nonneg. by right.
  - assert (Z.ldiff (Z.land a r) r = 0%Z) as Hdiff.
    { apply Z.bits_inj'. intros i Hi.
      rewrite Z.ldiff_spec, Z.land_spec, Z.bits_0.
      by destruct (Z.testbit a i), (Z.testbit r i). }
    apply Z.sub_nocarry_ldiff in Hdiff.
    assert (0 ≤ Z.ldiff r (Z.land a r))%Z by (apply Z.ldiff_nonneg; by left).
    lia.
Qed.

(** X1: [BooleanAndEventCombiner] over a range split in two is the
    conjunction of its results over the two parts, the second part starting
    in the state the first leaves; this holds for empty parts as well. *)
Theorem BooleanAndEventCombiner_split (r1 r2 : Range W bool) w :
  BooleanAndEventCombiner (r1 ++ r2) w =
    ((BooleanAndEventCombiner r1 w).1
       && (BooleanAndEventCombiner r2 (BooleanAndEventCombiner r1 w).2).1,
     (BooleanAndEventCombiner r2 (BooleanAndEventCombiner r1 w).2).2).
Proof.
  rewrite !BooleanAndEventCombiner_spec. simpl.
  by rewrite slot_results_app, forallb_app, invoke_all_app.
Qed.

(** X2: [BooleanOrEventCombiner] and [BitwiseAndEventCombiner] over a range
    split in two combine the results over the two parts with [||] and [&]
    only when both parts have slots.  When a part is empty the result is
    that of the other part: the value returned for no slots ([true], [0])
    is not neutral for the operation and is not combined in. *)
Theorem BooleanOr_BitwiseAnd_split
    (r1 r2 : Range W bool) (m1 m2 : Range W Z) w :
  (BooleanOrEventCombiner (r1 ++ r2) w).1 =
    match r1, r2 with
    | [], _ => (BooleanOrEventCombiner r2 w).1
    | _, [] => (BooleanOrEventCombiner r1 w).1
    | _, _ => (BooleanOrEventCombiner r1 w).1
              || (BooleanOrEventCombiner r2 (invoke_all r1 w)).1
    end
  ∧ (BitwiseAndEventCombiner (m1 ++ m2) w).1 =
    match m1, m2 with
    | [], _ => (BitwiseAndEventCombiner m2 w).1
    | _, [] => (BitwiseAndEventCombiner m1 w).1
    | _, _ => Z.land (BitwiseAndEventCombiner m1 w).1
                (BitwiseAndEventCombiner m2 (invoke_all m1 w)).1
    end.
Proof.
  split.
  - destruct r1 as [|f1 r1]; [done|]. destruct r2 as [|f2 r2].
    { by rewrite app_nil_r. }
    remember (f1 :: r1) as l1 eqn:H1. remember (f2 :: r2) as l2 eqn:H2.
    rewrite !BooleanOrEventCombiner_spec, slot_results_app, existsb_app.
    by destruct l1, l2.
  - destruct m1 as [|f1 m1]; [done|]. destruct m2 as [|f2 m2].
    { by rewrite app_nil_r. }
    remember (f1 :: m1) as l1 eqn:H1. remember (f2 :: m2) as l2 eqn:H2.
    rewrite !BitwiseAndEventCombiner_spec, slot_results_app.
    destruct (slot_results l1 w) as [|a rs1] eqn:Hl1.
    { apply slot_results_nil_inv in Hl1. by subst. }
    destruct (slot_results l2 (invoke_all l1 w)) as [|b rs2] eqn:Hl2.
    { apply slot_results_nil_inv in Hl2. by subst. }
    destruct l1; [done|]. destruct l2; [done|].
    simpl. rewrite foldl_app. apply fold_land_cons.
Qed.

(** X3: the mask [BitwiseAndEventCombiner] returns is contained in the
    result of every slot: and-ing it with any of them gives it back, so it
    never has a bit that some slot cleared; when that slot's result is not
    negative, the mask lies between [0] and it. *)
Theorem BitwiseAndEventCombiner_submask (masks : Range W Z) w (r : Z) :
  r ∈ slot_results masks w →
  Z.land (BitwiseAndEventCombiner masks w).1 r = (BitwiseAndEventCombiner masks w).1
  ∧ (0 ≤ r → 0 ≤ (BitwiseAndEventCombiner masks w).1 ≤ r)%Z.
Proof.
  intros Hin.
  assert (Z.land (BitwiseAndEventCombiner masks w).1 r
          = (BitwiseAndEventCombiner masks w).1) as Hsub.
  { rewrite BitwiseAndEventCombiner_spec. simpl fst.
    destruct (slot_results masks w) as [|a rs]; [by apply elem_of_nil in Hin|].
    apply Z.bits_inj'. intros i _. rewrite Z.land_spec, fold_land_testbit.
    destruct (Z.testbit a i && forallb (λ r0, Z.testbit r0 i) rs) eqn:Hall; [|done].
    simpl. apply (forallb_elem_of (λ r0, Z.testbit r0 i) (a :: rs)); [|done].
    exact Hall. }
  split; [done|]. intros Hr. rewrite <- Hsub. by apply land_upper_bound.
Qed.

(** X4: the combined result depends on the results of the slots only up to
    their order: two ranges whose slots yield the same results in any order
    are combined to the same value by each combiner. *)
Theorem combiners_order_independent
    (r1 r2 : Range W bool) (m1 m2 : Range W Z) w1 w2 :
  slot_results r1 w1 ≡ₚ slot_results r2 w2 →
  slot_results m1 w1 ≡ₚ slot_results m2 w2 →
  (BooleanOrEventCombiner r1 w1).1 = (BooleanOrEventCombiner r2 w2).1
  ∧ (BooleanAndEventCombiner r1 w1).1 = (BooleanAndEventCombiner r2 w2).1
  ∧ (BitwiseAndEventCombiner m1 w1).1 = (BitwiseAndEventCombiner m2 w2).1.
Proof.
  intros Hr Hm. split_and!.
  - rewrite !BooleanOrEventCombiner_spec. simpl fst.
    pose proof (Permutation_length Hr) as Hlen.
    rewrite !slot_results_length in Hlen.
    destruct r1, r2; simplify_eq/=; [done|].
    by apply existsb_Permutation.
  - rewrite !BooleanAndEventCombiner_spec. simpl fst.
    by apply forallb_Permutation.
  - rewrite !BitwiseAndEventCombiner_spec. simpl fst.
    destruct (slot_results m1 w1) as [|a1 rs1], (slot_results m2 w2) as [|a2 rs2].
    + done.
    + by apply Permutation_nil_cons in Hm.
    + symmetry in Hm. by apply Permutation_nil_cons in Hm.
    + apply Z.bits_inj'. intros i _. rewrite !fold_land_testbit.
      apply (forallb_Permutation (λ r0, Z.testbit r0 i)) in Hm. exact Hm.
Qed.

(** X5: whenever [BooleanAndEventCombiner] says that all slots accept,
    [BooleanOrEventCombiner] over the same range says that some slot does;
    on the empty range this rests on both returning [true]. *)
Theorem all_accept_then_any_accepts (range : Range W bool) w :
  (BooleanAndEventCombiner range w).1 = true →
  (BooleanOrEventCombiner range w).1 = true.
Proof.
  rewrite BooleanAndEventCombiner_spec, BooleanOrEventCombiner_spec. simpl fst.
  destruct range as [|f rest]; [done|]. simpl.
  destruct (f w) as [r w']. simpl. by destruct r.
Qed.

Lemma slot_results_as_mask (range : Range W bool) w :
  slot_results (as_mask <$> range) w = Z.b2z <$> slot_results range w
  ∧ invoke_all (as_mask <$> range) w = invoke_all range w.
Proof.
  revert w. induction range as [|f rest IH]; intros w; simpl; [done|].
  unfold as_mask at 1 3. destruct (f w) as [r w']. simpl.
  destruct (IH w') as [IH1 IH2]. split; [f_equal; exact IH1|exact IH2].
Qed.

Lemma fold_land_b2z (a : bool) (rs : list bool) :
  foldl Z.land (Z.b2z a) (Z.b2z <$> rs) = Z.b2z (a && forallb id rs).
Proof.
  revert a. induction rs as [|r rs IH]; intros a; simpl.
  - by rewrite andb_true_r.
  - replace (Z.land (Z.b2z a) (Z.b2z r)) with (Z.b2z (a && r))
      by (by destruct a, r).
    by rewrite IH, andb_assoc.
Qed.

(** X6: over slots that return [0] or [1], [BitwiseAndEventCombiner] agrees
    with [BooleanAndEventCombiner] on every range that has a slot, and
    leaves the same state; on the empty range the two differ, one returning
    [0] and the other [true]. *)
Theorem BitwiseAnd_of_booleans (range : Range W bool) w :
  range ≠ [] →
  BitwiseAndEventCombiner (as_mask <$> range) w
    = (Z.b2z (BooleanAndEventCombiner range w).1,
       (BooleanAndEventCombiner range w).2)
  ∧ (BitwiseAndEventCombiner (T := Z) [] w).1
    ≠ Z.b2z (BooleanAndEventCombiner [] w).1.
Proof.
  intros Hne. split; [|done].
  rewrite BitwiseAndEventCombiner_spec, BooleanAndEventCombiner_spec.
  destruct (slot_results_as_mask range w) as [-> ->]. simpl.
  destruct (slot_results range w) as [|a rs] eqn:Hrs.
  { by apply slot_results_nil_inv in Hrs. }
  simpl. by rewrite fold_land_b2z.
Qed.

End CombinerLaws.

(** ** More on dispatch: inlining, and callers that wait side by side *)

Section DispatchLaws.
Import Dispatch.
Context {U V E : Type}.
Variable isPrimaryThread : Thread -> bool.

Local Abbreviation Callable := (Callable U V E).
Local Abbreviation State := (State U V E).
Local Abbreviation run := (run isPrimaryThread).
Local Abbreviation dispatchSync := (dispatchSync isPrimaryThread).
Local Abbreviation wake := (wake isPrimaryThread).
Local Abbreviation invoke_packaged := (invoke_packaged isPrimaryThread).

Implicit Types (s : State) (c fn : Callable) (t p : Thread) (fut : Future).

(** Running [c] and then [k] is running [c] and continuing with [k] where
    [c] returned, on every thread. *)
Lemma run_then t c (k : V → Callable) s :
  run t (then_ c k) s = and_then (run t c s) k (fun v s' => run t (k v) s').
Proof.
  revert s. induction c as [v|e|act k' IH|fn' _ k' IH|fn' _ k' IH]; intros s; simpl.
  - done.
  - done.
  - destruct (act (memory s)) as [v u]. apply IH.
  - apply IH.
  - unfold dispatchSync_on. destruct (isPrimaryThread t) eqn:Hp.
    + destruct (run_primary_finished isPrimaryThread t fn' s Hp) as (o & s' & Hrun).
      rewrite Hrun. destruct o as [v|e]; simpl; [apply IH|done].
    + simpl. unfold future_get, get_future. simpl.
      destruct (futures s !! next_future s) as [[v|e]|]; simpl; [apply IH|done..].
Qed.

(** X7: on the primary thread, code that calls [dispatchSync( fn )] and goes
    on with the value behaves as the same code with the steps of [fn] in
    place of the call: same outcome, same state. *)
Theorem dispatchSync_inlines_on_primary_thread p fn (k : V → Callable) s :
  isPrimaryThread p = true →
  run p (CallDispatchSync fn k) s = run p (then_ fn k) s.
Proof.
  intros Hp. rewrite run_then. simpl. unfold dispatchSync_on. by rewrite Hp.
Qed.

Lemma dispatchSync_other_thread_wf t fn s :
  isPrimaryThread t = false → wf s →
  wf (state_of (dispatchSync t fn s))
  ∧ futures (state_of (dispatchSync t fn s)) = futures s
  ∧ next_future (state_of (dispatchSync t fn s)) = S (next_future s).
Proof.
  intros Ht Hwf.
  rewrite (dispatchSync_other_thread isPrimaryThread t fn s Ht Hwf). simpl.
  split; [|done]. destruct Hwf as [Hqueue Hfresh]. split; simpl.
  - intros task fut [Hin|Hin]%elem_of_app Hfut.
    + specialize (Hqueue _ _ Hin Hfut). lia.
    + apply list_elem_of_singleton in Hin. subst. simplify_eq/=. lia.
  - intros fut Hle. apply Hfresh. lia.
Qed.

(** X8: two threads that are not the primary thread call [dispatchSync] one
    after the other.  They wait on different futures.  When the closure of
    the first call is invoked on the primary thread, the first caller is
    woken with the outcome of its own callable while the second stays
    suspended; when the closure of the second is invoked, the second is
    woken with the outcome of its callable, and what the first was given is
    unchanged. *)
Theorem dispatchSync_callers_isolated t1 t2 p fn1 fn2 s :
  isPrimaryThread t1 = false → isPrimaryThread t2 = false →
  isPrimaryThread p = true → wf s →
  ∃ f1 f2 s1 s2,
    dispatchSync t1 fn1 s = Blocked f1 Return s1
    ∧ dispatchSync t2 fn2 s1 = Blocked f2 Return s2
    ∧ f1 ≠ f2
    ∧ ∃ o1 sa sb,
        run p fn1 s2 = Finished o1 sa
        ∧ invoke_packaged p f1 fn1 s2 = Some sb
        ∧ wake t1 f1 Return sb = Finished o1 sb
        ∧ wake t2 f2 Return sb = Blocked f2 Return sb
        ∧ ∃ o2 sc sd,
            run p fn2 sb = Finished o2 sc
            ∧ invoke_packaged p f2 fn2 sb = Some sd
            ∧ wake t2 f2 Return sd = Finished o2 sd
            ∧ wake t1 f1 Return sd = Finished o1 sd.
Proof.
  intros Ht1 Ht2 Hp Hwf.
  pose proof (dispatchSync_other_thread_wf t1 fn1 s Ht1 Hwf) as (Hwf1 & _).
  pose proof (dispatchSync_other_thread isPrimaryThread t1 fn1 s Ht1 Hwf) as Hcall1.
  rewrite Hcall1 in Hwf1. simpl state_of in Hwf1.
  set (s1 := dispatchAsync (RunPackaged (next_future s) fn1) (packaged_task s).2) in *.
  assert (next_future s1 = S (next_future s)) as Hn1 by reflexivity.
  assert (futures s1 = futures s) as Hf1 by reflexivity.
  pose proof (dispatchSync_other_thread isPrimaryThread t2 fn2 s1 Ht2 Hwf1) as Hcall2.
  set (s2 := dispatchAsync (RunPackaged (next_future s1) fn2) (packaged_task s1).2) in *.
  assert (futures s2 = futures s1) as Hf2 by reflexivity.
  assert (next_future s ≠ next_future s1) as Hne.
  { rewrite Hn1. apply Nat.neq_succ_diag_r. }
  exists (next_future s), (next_future s1), s1, s2.
  split; [done|]. split; [done|]. split; [done|].
  assert (futures s2 !! next_future s = None) as Hnone1.
  { rewrite Hf2, Hf1. by apply Hwf. }
  assert (futures s2 !! next_future s1 = None) as Hnone2.
  { rewrite Hf2, Hf1. apply Hwf. rewrite Hn1. lia. }
  destruct (run_primary_finished isPrimaryThread p fn1 s2 Hp) as (o1 & sa & Hrun1).
  destruct (invoke_packaged_ready isPrimaryThread p (next_future s) fn1 s2 o1 sa
              Hrun1 Hnone1) as [Hexec1 Hready1].
  set (sb := make_ready (next_future s) o1 sa) in *.
  assert (futures sb !! next_future s1 = None) as Hnone2b.
  { unfold sb. rewrite make_ready_lookup, decide_False by done.
    pose proof (run_futures isPrimaryThread p fn1 s2) as Hf. rewrite Hrun1 in Hf.
    simpl in Hf. by rewrite Hf. }
  exists o1, sa, sb. split; [done|]. split; [done|].
  split; [by apply wake_ready|].
  split; [unfold Dispatch.wake; by rewrite Hnone2b|].
  destruct (run_primary_finished isPrimaryThread p fn2 sb Hp) as (o2 & sc & Hrun2).
  destruct (invoke_packaged_ready isPrimaryThread p (next_future s1) fn2 sb o2 sc
              Hrun2 Hnone2b) as [Hexec2 Hready2].
  exists o2, sc, (make_ready (next_future s1) o2 sc).
  split; [done|]. split; [done|]. split; [by apply wake_ready|].
  apply wake_ready. rewrite make_ready_lookup, decide_False by congruence.
  pose proof (run_futures isPrimaryThread p fn2 sb) as Hf. rewrite Hrun2 in Hf.
  simpl in Hf. by rewrite Hf.
Qed.

(** X9: a future is made ready by the closure of its own call and by
    nothing else.  Invoking a callable, on whatever thread, leaves every
    future as it is; the closure of one call leaves the futures of all
    other calls as they are; and a future that is ready keeps its outcome
    whichever closure is invoked. *)
Theorem futures_fulfilled_by_own_closure :
  (∀ t c s, futures (state_of (run t c s)) = futures s)
  ∧ (∀ p fut fn s s' (fut' : Future),
       invoke_packaged p fut fn s = Some s' → fut' ≠ fut →
       futures s' !! fut' = futures s !! fut')
  ∧ (∀ p fut fn s s' (fut' : Future) o,
       invoke_packaged p fut fn s = Some s' → futures s !! fut' = Some o →
       futures s' !! fut' = Some o).
Proof.
  split_and!.
  - intros t c s. apply run_futures.
  - intros p fut fn s s' fut' Hexec Hne.
    apply (exec_task_other_future isPrimaryThread p (RunPackaged fut fn) s s' fut');
      [exact Hexec|]. simpl. congruence.
  - intros p fut fn s s' fut' o Hexec Hready.
    by apply (exec_task_ready_future isPrimaryThread p (RunPackaged fut fn) s s' fut' o).
Qed.

End DispatchLaws.

(** ** The startup settings *)

Section SettingsFacts.
Import Settings.
Context {Format RendererRef DisplayRef FullScreenOptions : Type}.
Variable F : FormatMembers Format DisplayRef FullScreenOptions.

Local Abbreviation Settings :=
  (Settings.t Format RendererRef).
Local Abbreviation Call :=
  (Settings.Call Format RendererRef DisplayRef FullScreenOptions).

Implicit Types (s : Settings) (c : Call) (cs : list Call).

Lemma call_frame c s :
  getWindowFormats (call F c s) = getWindowFormats s
  ∧ getCommandLineArgs (call F c s) = getCommandLineArgs s
  ∧ isFrameRateEnabled (call F c s) = isFrameRateEnabled s
  ∧ getFrameRate (call F c s) = getFrameRate s
  ∧ isPowerManagementEnabled (call F c s) = isPowerManagementEnabled s
  ∧ shouldQuit (call F c s) = shouldQuit s
  ∧ getDefaultWindowFormat (call F c s) = format_after F c (getDefaultWindowFormat s).
Proof. by destruct c. Qed.

Lemma call_on_window c s :
  on_window c = true →
  getDefaultRenderer (call F c s) = getDefaultRenderer s
  ∧ getTitle (call F c s) = getTitle s
  ∧ isHighDensityDisplayEnabled (call F c s) = isHighDensityDisplayEnabled s
  ∧ isMultiTouchEnabled (call F c s) = isMultiTouchEnabled s.
Proof. by destruct c. Qed.

Lemma calls_snoc cs c s : calls F (cs ++ [c]) s = call F c (calls F cs s).
Proof. unfold calls. by rewrite foldl_app. Qed.

(** X10: whatever setters of the header a settings function calls, and in
    whatever order, the formats prepared for windows, the command line
    arguments, the frame rate and its switch, power management and the
    should-quit flag stay as they were.  The default window format ends up
    as the calls that forward to it make it, one after the other, so a
    [setDefaultWindowFormat] undoes every window setting made before it;
    and calls that forward to the default window format leave the renderer,
    the title and the display and touch switches alone. *)
Theorem settings_calls_frame cs s :
  (getWindowFormats (calls F cs s) = getWindowFormats s
   ∧ getCommandLineArgs (calls F cs s) = getCommandLineArgs s
   ∧ isFrameRateEnabled (calls F cs s) = isFrameRateEnabled s
   ∧ getFrameRate (calls F cs s) = getFrameRate s
   ∧ isPowerManagementEnabled (calls F cs s) = isPowerManagementEnabled s
   ∧ shouldQuit (calls F cs s) = shouldQuit s)
  ∧ getDefaultWindowFormat (calls F cs s)
    = foldl (fun format c => format_after F c format) (getDefaultWindowFormat s) cs
  ∧ (∀ format cs',
       getDefaultWindowFormat
         (calls F (cs ++ call_setDefaultWindowFormat format :: cs') s)
       = foldl (fun format c => format_after F c format) format cs')
  ∧ (forallb on_window cs = true →
       getDefaultRenderer (calls F cs s) = getDefaultRenderer s
       ∧ getTitle (calls F cs s) = getTitle s
       ∧ isHighDensityDisplayEnabled (calls F cs s) = isHighDensityDisplayEnabled s
       ∧ isMultiTouchEnabled (calls F cs s) = isMultiTouchEnabled s).
Proof.
  assert (Hframe : ∀ cs s,
    (getWindowFormats (calls F cs s) = getWindowFormats s
     ∧ getCommandLineArgs (calls F cs s) = getCommandLineArgs s
     ∧ isFrameRateEnabled (calls F cs s) = isFrameRateEnabled s
     ∧ getFrameRate (calls F cs s) = getFrameRate s
     ∧ isPowerManagementEnabled (calls F cs s) = isPowerManagementEnabled s
     ∧ shouldQuit (calls F cs s) = shouldQuit s)
    ∧ getDefaultWindowFormat (calls F cs s)
      = foldl (fun format c => format_after F c format) (getDefaultWindowFormat s) cs).
  { clear. intros cs. induction cs as [|c cs IH] using rev_ind; intros s.
    - done.
    - rewrite calls_snoc, foldl_app. simpl.
      destruct (call_frame c (calls F cs s)) as (-> & -> & -> & -> & -> & -> & ->).
      destruct (IH s) as ((-> & -> & -> & -> & -> & ->) & ->). done. }
  destruct (Hframe cs s) as [Hfixed Hformat].
  split; [exact Hfixed|]. split; [exact Hformat|]. split.
  - intros format cs'. destruct (Hframe (cs ++ call_setDefaultWindowFormat format :: cs') s)
      as [_ ->]. by rewrite foldl_app.
  - clear. revert s. induction cs as [|c cs IH] using rev_ind; intros s Hall.
    + done.
    + rewrite forallb_app in Hall. apply andb_true_iff in Hall as [Hcs Hc].
      simpl in Hc. rewrite andb_true_r in Hc.
      rewrite calls_snoc.
      destruct (call_on_window c (calls F cs s) Hc) as (-> & -> & -> & ->).
      by apply IH.
Qed.

End SettingsFacts.

(** ** The further properties at work on the examples *)

Section MoreExamples.
Import Combiner Dispatch.

Lemma BitwiseAndEventCombiner_submask_witness :
  6%Z ∈ slot_results example_masks 0
  ∧ Z.land (BitwiseAndEventCombiner example_masks 0).1 6
    = (BitwiseAndEventCombiner example_masks 0).1
  ∧ (0 ≤ 6 → 0 ≤ (BitwiseAndEventCombiner example_masks 0%nat).1 ≤ 6)%Z.
Proof.
  split; [apply list_elem_of_here|].
  apply (BitwiseAndEventCombiner_submask example_masks 0 6).
  apply list_elem_of_here.
Defined.

Lemma combiners_order_independent_witness :
  (slot_results example_handlers 0 ≡ₚ slot_results example_handlers_reordered 0
   ∧ slot_results example_masks 0 ≡ₚ slot_results example_masks_reordered 0)
  ∧ (BooleanOrEventCombiner example_handlers 0).1
    = (BooleanOrEventCombiner example_handlers_reordered 0).1
  ∧ (BooleanAndEventCombiner example_handlers 0).1
    = (BooleanAndEventCombiner example_handlers_reordered 0).1
  ∧ (BitwiseAndEventCombiner example_masks 0).1
    = (BitwiseAndEventCombiner example_masks_reordered 0).1.
Proof.
  split; [split; apply perm_swap|].
  apply (combiners_order_independent example_handlers example_handlers_reordered
           example_masks example_masks_reordered 0 0); apply perm_swap.
Defined.

Lemma all_accept_then_any_accepts_witness :
  (BooleanAndEventCombiner example_accepting 0).1 = true
  ∧ (BooleanOrEventCombiner example_accepting 0).1 = true.
Proof.
  split; [reflexivity|].
  apply (all_accept_then_any_accepts example_accepting 0). reflexivity.
Defined.

Lemma BitwiseAnd_of_booleans_witness :
  example_handlers ≠ []
  ∧ BitwiseAndEventCombiner (as_mask <$> example_handlers) 0
    = (Z.b2z (BooleanAndEventCombiner example_handlers 0).1,
       (BooleanAndEventCombiner example_handlers 0).2)
  ∧ (BitwiseAndEventCombiner (T := Z) [] 0).1
    ≠ Z.b2z (BooleanAndEventCombiner [] 0).1.
Proof.
  split; [discriminate|].
  apply (BitwiseAnd_of_booleans example_handlers 0). discriminate.
Defined.

Lemma dispatchSync_inlines_on_primary_thread_witness :
  example_isPrimaryThread 0 = true
  ∧ run example_isPrimaryThread 0
      (CallDispatchSync example_fn (fun v => Return (S v))) example_state
    = run example_isPrimaryThread 0
        (then_ example_fn (fun v => Return (S v))) example_state.
Proof.
  split; [reflexivity|].
  apply (dispatchSync_inlines_on_primary_thread example_isPrimaryThread 0
           example_fn (fun v => Return (S v)) example_state).
  reflexivity.
Defined.

Lemma dispatchSync_callers_isolated_witness :
  (example_isPrimaryThread 1 = false ∧ example_isPrimaryThread 2 = false
   ∧ example_isPrimaryThread 0 = true ∧ wf example_state)
  ∧ ∃ f1 f2 s1 s2,
      dispatchSync example_isPrimaryThread 1 example_fn example_state
        = Blocked f1 Return s1
      ∧ dispatchSync example_isPrimaryThread 2 example_failing s1
        = Blocked f2 Return s2
      ∧ f1 ≠ f2
      ∧ ∃ o1 sa sb,
          run example_isPrimaryThread 0 example_fn s2 = Finished o1 sa
          ∧ invoke_packaged example_isPrimaryThread 0 f1 example_fn s2 = Some sb
          ∧ wake example_isPrimaryThread 1 f1 Return sb = Finished o1 sb
          ∧ wake example_isPrimaryThread 2 f2 Return sb = Blocked f2 Return sb
          ∧ ∃ o2 sc sd,
              run example_isPrimaryThread 0 example_failing sb = Finished o2 sc
              ∧ invoke_packaged example_isPrimaryThread 0 f2 example_failing sb
                = Some sd
              ∧ wake example_isPrimaryThread 2 f2 Return sd = Finished o2 sd
              ∧ wake example_isPrimaryThread 1 f1 Return sd = Finished o1 sd.
Proof.
  split; [split_and!; [reflexivity..|exact example_state_wf]|].
  apply (dispatchSync_callers_isolated example_isPrimaryThread 1 2 0
           example_fn example_failing example_state);
    [reflexivity..|exact example_state_wf].
Defined.

(** The two callers of the witness: thread [1] is given the [2] its callable
    returned, thread [2] the [7] its callable threw. *)
Example example_two_callers :
  let s2 := mkState (queue example_state
                       ++ [RunPackaged 0 example_fn; RunPackaged 1 example_failing])
              ∅ 2 1 in
  let sb := mkState (queue s2) (<[0 := Returned 2]> ∅) 2 2 in
  let sd := mkState (queue s2) (<[1 := Thrown 7]> (<[0 := Returned 2]> ∅)) 2 3 in
  invoke_packaged example_isPrimaryThread 0 0 example_fn s2 = Some sb
  ∧ wake example_isPrimaryThread 2 1 Return sb = Blocked 1 Return sb
  ∧ invoke_packaged example_isPrimaryThread 0 1 example_failing sb = Some sd
  ∧ wake example_isPrimaryThread 1 0 Return sd = Finished (Returned 2) sd
  ∧ wake example_isPrimaryThread 2 1 Return sd = Finished (Thrown 7) sd.
Proof. repeat split. Qed.

End MoreExamples.
